(** * The detray navigator (core/include/tools/navigator.hpp)

    A shallow embedding of [detray::navigator]: the navigation state with its
    two candidate kernels, and the calls [status] and [target] with their
    helpers [initialize_kernel], [update_kernel], [sort_and_set],
    [check_volume_switch] and [is_exhausted].

    The navigator is a template over the detector and the inspector; the
    embedding is parametric in the same places: the scalar type with its
    [operator<], the track, the surface and portal objects with their
    transform and mask stores, the intersection routine [intersect], the
    inspector and [std::sort] are variables of the section below.  The
    mutable [navigation_state &] is passed explicitly; the kernel reference
    [kernel_t &] is a selector into it, so writes through the reference land
    in the state.  A vector is its elements and its capacity, and the
    iterator into it carries whether a reallocation has left it behind.
    Dereferencing an iterator that is stale or not in range and indexing a
    container out of range give [InvalidAccess]. *)

From Stdlib Require Import ZArith NArith QArith Lia.
From stdpp Require Import base list sorting relations.

Set Default Proof Using "Type".

(** ** Outcome of a call *)

Inductive result (A : Type) : Type :=
| Ok (a : A)
| InvalidAccess
| OutOfFuel.
Arguments Ok {A} a.
Arguments InvalidAccess {A}.
Arguments OutOfFuel {A}.

#[global] Instance result_ret : MRet result := fun A a => Ok a.
#[global] Instance result_bind : MBind result := fun A B f m =>
  match m with
  | Ok a => f a
  | InvalidAccess => InvalidAccess
  | OutOfFuel => OutOfFuel
  end.

(** ** Indices *)

Definition dindex := N.

(** Modelled from the spec: utils/indexing.hpp is not among the sources; the
    spec calls [dindex_invalid] the sentinel index.  It is taken as the
    largest value of a 64-bit unsigned index. *)
Definition dindex_invalid : dindex := 18446744073709551615%N.

(** [v[i]] for a [dindex]: [None] when [i] is out of range. *)
Fixpoint at_index {A} (l : list A) (i : dindex) : option A :=
  match l with
  | [] => None
  | x :: l' => if N.eqb i 0 then Some x else at_index l' (N.pred i)
  end.

Definition access {A} (o : option A) : result A :=
  match o with Some a => Ok a | None => InvalidAccess end.

(** ** Enumerations *)

Inductive navigation_status : Type :=
| e_on_target
| e_abort
| e_unknown
| e_towards_surface
| e_on_surface
| e_towards_portal
| e_on_portal.

Definition navigation_status_value (s : navigation_status) : Z :=
  match s with
  | e_on_target => -3
  | e_abort => -2
  | e_unknown => -1
  | e_towards_surface => 0
  | e_on_surface => 1
  | e_towards_portal => 2
  | e_on_portal => 3
  end.

#[global] Instance navigation_status_eq_dec : EqDecision navigation_status.
Proof. solve_decision. Defined.

Inductive navigation_trust_level : Type :=
| e_no_trust
| e_fair_trust
| e_high_trust
| e_full_trust.

Definition navigation_trust_level_value (l : navigation_trust_level) : Z :=
  match l with
  | e_no_trust => 0
  | e_fair_trust => 1
  | e_high_trust => 3
  | e_full_trust => 4
  end.

#[global] Instance navigation_trust_level_eq_dec : EqDecision navigation_trust_level.
Proof. solve_decision. Defined.

(** [a >= b] on the underlying integers of the enumeration. *)
Definition trust_geb (a b : navigation_trust_level) : bool :=
  (navigation_trust_level_value b <=? navigation_trust_level_value a)%Z.

(** Modelled from the spec: core/intersection.hpp is not among the sources;
    the status of an intersection is inside, outside or missed. *)
Inductive intersection_status : Type :=
| e_inside
| e_outside
| e_missed.

#[global] Instance intersection_status_eq_dec : EqDecision intersection_status.
Proof. solve_decision. Defined.

(** The template argument [kernel_t]: [kSurfaceType] is true for
    [surface_kind]. *)
Inductive kernel_kind : Type :=
| surface_kind
| portal_kind.

Definition kSurfaceType (k : kernel_kind) : bool :=
  match k with surface_kind => true | portal_kind => false end.

Section Navigator.

(** [scalar] with its [operator<]. *)
Context {scalar : Type}.
Variable scalar_lt : scalar → scalar → bool.

(** Modelled from the spec: core/intersection.hpp is not among the sources.
    An intersection record holds the path length, the status, the index of
    the object and the link to the neighbour volume. *)
Record intersection : Type := mk_intersection {
  path : scalar;
  sf_status : intersection_status;
  index : dindex;
  link : dindex
}.

Definition set_index (si : dindex) (c : intersection) : intersection :=
  {| path := path c; sf_status := sf_status c; index := si; link := link c |}.

Definition set_link (l : dindex) (c : intersection) : intersection :=
  {| path := path c; sf_status := sf_status c; index := index c; link := l |}.

(** [intersection::operator<] compares the path lengths. *)
Definition intersection_lt (a b : intersection) : bool :=
  scalar_lt (path a) (path b).

Definition is_inside (c : intersection) : bool :=
  bool_decide (sf_status c = e_inside).

(** *** The navigation kernel

    The vector [candidates] is its elements and its capacity.  The iterator
    [next] points into a buffer of the vector: [next] is its offset from the
    start of that buffer, and [next_stale] tells that the vector has moved to
    another buffer since the iterator was taken, by a reallocation in
    [reserve] or [push_back].  [candidates.begin()] is the offset 0 and
    [candidates.end()] the offset [length candidates] in the present buffer.
    A stale iterator points into a buffer that was released: it differs from
    every iterator of the present buffer, and reading through it is an
    invalid access.  The members [on] and [links] are written by [clear]
    only and read nowhere in the navigator; they are left out. *)
Record navigation_kernel : Type := mk_kernel {
  candidates : list intersection;
  next : nat;
  next_stale : bool;
  capacity : nat
}.

(** The capacity a full vector grows to in [push_back] is left to the
    implementation of the library: it is the new size and [growth] of the
    old capacity more. *)
Variable growth : nat → nat.

Definition kernel_end (kernel : navigation_kernel) : nat :=
  length (candidates kernel).

Definition empty (kernel : navigation_kernel) : bool :=
  match candidates kernel with [] => true | _ :: _ => false end.

(** [candidates.clear()] keeps the buffer; [next = candidates.end()]. *)
Definition clear (kernel : navigation_kernel) : navigation_kernel :=
  {| candidates := []; next := 0; next_stale := false;
     capacity := capacity kernel |}.

(** [candidates.reserve(n)]: a larger buffer is taken when the capacity is
    less than [n], and every iterator is stale then.  The new capacity is
    [n], the least the standard allows and what libstdc++ and libc++
    allocate. *)
Definition reserve (n : nat) (kernel : navigation_kernel) : navigation_kernel :=
  if capacity kernel <? n then
    {| candidates := candidates kernel; next := next kernel;
       next_stale := true; capacity := n |}
  else kernel.

(** [candidates.push_back(c)]: a larger buffer is taken when the vector is
    full, and every iterator is stale then; otherwise the iterators keep
    their place in the buffer. *)
Definition push_back (c : intersection) (kernel : navigation_kernel)
  : navigation_kernel :=
  if capacity kernel <=? length (candidates kernel) then
    {| candidates := candidates kernel ++ [c]; next := next kernel;
       next_stale := true;
       capacity := S (length (candidates kernel)) + growth (capacity kernel) |}
  else
    {| candidates := candidates kernel ++ [c]; next := next kernel;
       next_stale := next_stale kernel; capacity := capacity kernel |}.

(** [kernel.next == kernel.candidates.end()]: a stale iterator points into
    the buffer that was released, and is not the end of the present one. *)
Definition is_exhausted (kernel : navigation_kernel) : bool :=
  negb (next_stale kernel) && Nat.eqb (next kernel) (kernel_end kernel).

(** [*kernel.next] *)
Definition deref (kernel : navigation_kernel) : result intersection :=
  if next_stale kernel then InvalidAccess
  else access (candidates kernel !! next kernel).

(** *** The navigation state *)
Context {inspector_type : Type}.

Record navigation_state : Type := mk_state {
  surface_kernel : navigation_kernel;
  portal_kernel : navigation_kernel;
  volume_index : dindex;
  distance_to_next : scalar;
  on_surface_tolerance : scalar;
  inspector : inspector_type;
  nav_status : navigation_status;
  current_index : dindex;
  trust_level : navigation_trust_level
}.

Definition set_surface_kernel (x : navigation_kernel) (n : navigation_state) :=
  mk_state x (portal_kernel n) (volume_index n) (distance_to_next n)
    (on_surface_tolerance n) (inspector n) (nav_status n) (current_index n)
    (trust_level n).
Definition set_portal_kernel (x : navigation_kernel) (n : navigation_state) :=
  mk_state (surface_kernel n) x (volume_index n) (distance_to_next n)
    (on_surface_tolerance n) (inspector n) (nav_status n) (current_index n)
    (trust_level n).
Definition set_volume_index (x : dindex) (n : navigation_state) :=
  mk_state (surface_kernel n) (portal_kernel n) x (distance_to_next n)
    (on_surface_tolerance n) (inspector n) (nav_status n) (current_index n)
    (trust_level n).
Definition set_distance_to_next (x : scalar) (n : navigation_state) :=
  mk_state (surface_kernel n) (portal_kernel n) (volume_index n) x
    (on_surface_tolerance n) (inspector n) (nav_status n) (current_index n)
    (trust_level n).
Definition set_inspector (x : inspector_type) (n : navigation_state) :=
  mk_state (surface_kernel n) (portal_kernel n) (volume_index n)
    (distance_to_next n) (on_surface_tolerance n) x (nav_status n)
    (current_index n) (trust_level n).
Definition set_nav_status (x : navigation_status) (n : navigation_state) :=
  mk_state (surface_kernel n) (portal_kernel n) (volume_index n)
    (distance_to_next n) (on_surface_tolerance n) (inspector n) x
    (current_index n) (trust_level n).
Definition set_current_index (x : dindex) (n : navigation_state) :=
  mk_state (surface_kernel n) (portal_kernel n) (volume_index n)
    (distance_to_next n) (on_surface_tolerance n) (inspector n)
    (nav_status n) x (trust_level n).
Definition set_trust_level (x : navigation_trust_level) (n : navigation_state) :=
  mk_state (surface_kernel n) (portal_kernel n) (volume_index n)
    (distance_to_next n) (on_surface_tolerance n) (inspector n)
    (nav_status n) (current_index n) x.

(** The kernel a [kernel_t &] refers to, and a write through it. *)
Definition kernel_of (k : kernel_kind) (n : navigation_state) : navigation_kernel :=
  match k with
  | surface_kind => surface_kernel n
  | portal_kind => portal_kernel n
  end.

Definition set_kernel (k : kernel_kind) (x : navigation_kernel) (n : navigation_state) :=
  match k with
  | surface_kind => set_surface_kernel x n
  | portal_kind => set_portal_kernel x n
  end.

(** A write to the elements in place: the buffer stays. *)
Definition set_candidates (k : kernel_kind) (l : list intersection) (n : navigation_state) :=
  set_kernel k
    {| candidates := l; next := next (kernel_of k n);
       next_stale := next_stale (kernel_of k n);
       capacity := capacity (kernel_of k n) |} n.

(** [kernel.next = ...] with an iterator of the present buffer. *)
Definition set_next (k : kernel_kind) (i : nat) (n : navigation_state) :=
  set_kernel k
    {| candidates := candidates (kernel_of k n); next := i;
       next_stale := false; capacity := capacity (kernel_of k n) |} n.

(** [++kernel.next] *)
Definition increment_next (k : kernel_kind) (n : navigation_state) :=
  set_kernel k
    {| candidates := candidates (kernel_of k n);
       next := S (next (kernel_of k n));
       next_stale := next_stale (kernel_of k n);
       capacity := capacity (kernel_of k n) |} n.

Definition towards (k : kernel_kind) : navigation_status :=
  if kSurfaceType k then e_towards_surface else e_towards_portal.

Definition on_object (k : kernel_kind) : navigation_status :=
  if kSurfaceType k then e_on_surface else e_on_portal.

(** The state a navigation starts from: the default member initialisers of
    [navigation_state]. *)
Definition initial_state (infinity tolerance : scalar) (i : inspector_type)
  : navigation_state :=
  {| surface_kernel :=
       {| candidates := []; next := 0; next_stale := false; capacity := 0 |};
     portal_kernel :=
       {| candidates := []; next := 0; next_stale := false; capacity := 0 |};
     volume_index := dindex_invalid;
     distance_to_next := infinity;
     on_surface_tolerance := tolerance;
     inspector := i;
     nav_status := e_unknown;
     current_index := dindex_invalid;
     trust_level := e_no_trust |}.

(** [navigation.inspector(navigation)]: the inspector is a member of the
    state it is shown; the call may change the inspector, nothing else. *)
Variable inspector_call : inspector_type → navigation_state → inspector_type.

Definition inspect (n : navigation_state) : navigation_state :=
  set_inspector (inspector_call (inspector n) n) n.

(** *** The detector *)

Context {track object transform_store mask_store : Type}.

(** Modelled from the spec: the detector type is a template argument and its
    headers are not among the sources.  A constituent store holds the
    objects of a volume (its surfaces or its portals) with their transforms
    and masks. *)
Record constituents : Type := mk_constituents {
  objects : list object;
  transforms : transform_store;
  masks : mask_store
}.

Definition indexed_object (cs : constituents) (si : dindex) : result object :=
  access (at_index (objects cs) si).

(** Modelled from the spec: a volume has an index and two constituent
    stores. *)
Record volume : Type := mk_volume {
  vol_index : dindex;
  surfaces : constituents;
  portals : constituents
}.

(** Modelled from the spec: the detector finds a volume by index
    ([detector.indexed_volume(i)], an access to the container of volumes) or
    by a position ([detector.indexed_volume(track.pos)], the global
    search). *)
Record detector_type : Type := mk_detector {
  volumes : list volume;
  volume_search : track → volume
}.

Definition indexed_volume (d : detector_type) (i : dindex) : result volume :=
  access (at_index (volumes d) i).

(** [intersect(track, object, transforms, masks)] of
    tools/intersection_kernel.hpp, which is not among the sources: it
    gives the intersection and the links of the object; the second
    component here is the entry [link[0]] the navigator reads. *)
Variable intersect :
  track → object → transform_store → mask_store → intersection * dindex.

(** [std::sort(candidates.begin(), candidates.end())] with
    [intersection::operator<]. *)
Variable sort : list intersection → list intersection.

(** The detector the navigator moves in. *)
Variable detector : detector_type.

(** ** sort_and_set *)
Definition sort_and_set (k : kernel_kind) (navigation : navigation_state)
  : result navigation_state :=
  if negb (empty (kernel_of k navigation)) then
    let navigation := set_trust_level e_full_trust navigation in
    let navigation :=
      set_candidates k (sort (candidates (kernel_of k navigation))) navigation in
    let navigation := set_next k 0 navigation in
    head ← deref (kernel_of k navigation);
    let navigation := set_distance_to_next (path head) navigation in
    let navigation :=
      if scalar_lt (distance_to_next navigation) (on_surface_tolerance navigation)
      then set_current_index (index head)
             (set_nav_status (on_object k) navigation)
      else navigation in
    let navigation := set_current_index dindex_invalid navigation in
    let navigation := set_nav_status (towards k) navigation in
    Ok navigation
  else Ok navigation.

(** ** initialize_kernel *)

(** The loop over [sequence({0, n_objects - 1})]: [si] is the index of the
    first object of [objs] in the store. *)
Fixpoint intersect_objects (k : kernel_kind) (t : track) (cs : constituents)
    (objs : list object) (si : dindex) (navigation : navigation_state)
  : navigation_state :=
  match objs with
  | [] => navigation
  | obj :: rest =>
      let '(sfi, lnk) := intersect t obj (transforms cs) (masks cs) in
      let sfi := set_index si sfi in
      let sfi := set_link lnk sfi in
      let navigation :=
        if is_inside sfi then
          let navigation := set_nav_status (towards k) navigation in
          set_kernel k (push_back sfi (kernel_of k navigation)) navigation
        else navigation in
      intersect_objects k t cs rest (N.succ si) navigation
  end.

Definition initialize_kernel (k : kernel_kind) (navigation : navigation_state)
    (t : track) (cs : constituents) : result navigation_state :=
  let n_objects := length (objects cs) in
  if Nat.eqb n_objects 0 then Ok navigation
  else
    let navigation :=
      set_kernel k (reserve n_objects (kernel_of k navigation)) navigation in
    let navigation := intersect_objects k t cs (objects cs) 0%N navigation in
    sort_and_set k navigation.

(** ** update_kernel *)

(** The tail of [update_kernel]: "This kernel is exhausted". *)
Definition exhaust (k : kernel_kind) (navigation : navigation_state)
  : navigation_state :=
  let navigation := set_next k (kernel_end (kernel_of k navigation)) navigation in
  set_trust_level e_no_trust navigation.

(** The loop of the fair-trust branch over [kernel.candidates]. *)
Fixpoint reintersect_all (t : track) (cs : constituents) (l : list intersection)
  : result (list intersection) :=
  match l with
  | [] => Ok []
  | c :: rest =>
      let si := index c in
      s ← indexed_object cs si;
      let '(sfi, lnk) := intersect t s (transforms cs) (masks cs) in
      let c := sfi in
      let c := set_index si c in
      let c := set_link lnk c in
      rest' ← reintersect_all t cs rest;
      Ok (c :: rest')
  end.

(** [update_kernel] calls itself after [++kernel.next]; [fuel] bounds the
    depth of these calls. *)
Fixpoint update_kernel_fuel (fuel : nat) (k : kernel_kind)
    (navigation : navigation_state) (t : track) (cs : constituents)
  : result (bool * navigation_state) :=
  match fuel with
  | O => OutOfFuel
  | S fuel' =>
    if empty (kernel_of k navigation) then
      navigation ← initialize_kernel k navigation t cs;
      Ok (true, navigation)
    else if trust_geb (trust_level navigation) e_high_trust
            && negb (is_exhausted (kernel_of k navigation)) then
      cur ← deref (kernel_of k navigation);
      let si := index cur in
      s ← indexed_object cs si;
      let '(sfi, lnk) := intersect t s (transforms cs) (masks cs) in
      let sfi := set_index si sfi in
      let sfi := set_link lnk sfi in
      if is_inside sfi then
        let navigation :=
          set_candidates k
            (<[next (kernel_of k navigation) := sfi]>
               (candidates (kernel_of k navigation))) navigation in
        let navigation := set_distance_to_next (path sfi) navigation in
        if scalar_lt (path sfi) (on_surface_tolerance navigation) then
          let navigation := set_nav_status (on_object k) navigation in
          let navigation := set_current_index si navigation in
          let navigation :=
            if negb (bool_decide (nav_status navigation = e_on_portal)) then
              let navigation := increment_next k navigation in
              set_trust_level e_high_trust navigation
            else navigation in
          Ok (true, navigation)
        else
          let navigation := set_nav_status (towards k) navigation in
          let navigation := set_trust_level e_full_trust navigation in
          Ok (true, navigation)
      else
        let navigation := increment_next k navigation in
        '(found, navigation) ← update_kernel_fuel fuel' k navigation t cs;
        if (found : bool) then Ok (true, navigation)
        else Ok (false, exhaust k navigation)
    else if bool_decide (trust_level navigation = e_fair_trust) then
      l ← reintersect_all t cs (candidates (kernel_of k navigation));
      let navigation := set_candidates k l navigation in
      navigation ← sort_and_set k navigation;
      if bool_decide (trust_level navigation = e_high_trust) then
        Ok (true, navigation)
      else Ok (false, exhaust k navigation)
    else Ok (false, exhaust k navigation)
  end.

(** One more level than there are candidates from the cursor on. *)
Definition update_kernel (k : kernel_kind) (navigation : navigation_state)
    (t : track) (cs : constituents) : result (bool * navigation_state) :=
  update_kernel_fuel
    (S (kernel_end (kernel_of k navigation) - next (kernel_of k navigation)))
    k navigation t cs.

(** ** check_volume_switch *)
Definition check_volume_switch (navigation : navigation_state)
  : result navigation_state :=
  if bool_decide (nav_status navigation = e_on_portal) then
    cur ← deref (portal_kernel navigation);
    let navigation := set_volume_index (link cur) navigation in
    let navigation := set_surface_kernel (clear (surface_kernel navigation)) navigation in
    let navigation := set_portal_kernel (clear (portal_kernel navigation)) navigation in
    let navigation := set_trust_level e_no_trust navigation in
    Ok navigation
  else Ok navigation.

(** The volume both calls start from: by index, or through the global
    search when the index is the sentinel. *)
Definition retrieve_volume (navigation : navigation_state) (t : track)
  : result volume :=
  if negb (N.eqb (volume_index navigation) dindex_invalid)
  then indexed_volume detector (volume_index navigation)
  else Ok (volume_search detector t).

(** ** status *)
Definition status (navigation : navigation_state) (t : track)
  : result navigation_state :=
  vol ← retrieve_volume navigation t;
  let navigation := set_volume_index (vol_index vol) navigation in
  if N.eqb (volume_index navigation) dindex_invalid
     || bool_decide (trust_level navigation = e_no_trust) then
    navigation ← initialize_kernel surface_kind navigation t (surfaces vol);
    if empty (surface_kernel navigation) then
      navigation ← initialize_kernel portal_kind navigation t (portals vol);
      navigation ← check_volume_switch navigation;
      Ok (inspect navigation)
    else Ok (inspect navigation)
  else
    '(found, navigation) ←
      (if negb (is_exhausted (surface_kernel navigation)) then
         update_kernel surface_kind navigation t (surfaces vol)
       else Ok (false, navigation));
    if (found : bool) then Ok (inspect navigation)
    else
      '(_, navigation) ← update_kernel portal_kind navigation t (portals vol);
      navigation ← check_volume_switch navigation;
      Ok (inspect navigation).

(** ** target *)
Definition target (navigation : navigation_state) (t : track)
  : result navigation_state :=
  if bool_decide (trust_level navigation = e_full_trust) then Ok navigation
  else
    vol ← retrieve_volume navigation t;
    let navigation := set_volume_index (vol_index vol) navigation in
    if bool_decide (trust_level navigation = e_high_trust) then
      if negb (empty (surface_kernel navigation)) then
        if is_exhausted (surface_kernel navigation) then
          let navigation :=
            set_surface_kernel (clear (surface_kernel navigation)) navigation in
          let navigation := set_trust_level e_no_trust navigation in
          '(_, navigation) ← update_kernel portal_kind navigation t (portals vol);
          Ok (inspect navigation)
        else
          '(found, navigation) ←
            update_kernel surface_kind navigation t (surfaces vol);
          if (found : bool) then Ok (inspect navigation)
          else
            '(_, navigation) ← update_kernel portal_kind navigation t (portals vol);
            Ok (inspect navigation)
      else
        '(_, navigation) ← update_kernel portal_kind navigation t (portals vol);
        Ok (inspect navigation)
    else Ok (inspect navigation).

(** ** Basic facts *)

Lemma bind_Ok {A B} (m : result A) (f : A → result B) (b : B) :
  (m ≫= f) = Ok b ↔ ∃ a, m = Ok a ∧ f a = Ok b.
Proof.
  destruct m; simpl; split; try (intros [? [? ?]]); try discriminate; eauto.
  simplify_eq. done.
Qed.

Lemma deref_Ok (kernel : navigation_kernel) (c : intersection) :
  deref kernel = Ok c ↔
  next_stale kernel = false ∧ candidates kernel !! next kernel = Some c.
Proof.
  unfold deref. destruct (next_stale kernel);
    destruct (candidates kernel !! next kernel); simpl; split;
    try intros [? ?]; intros; simplify_eq; done.
Qed.

Lemma kernel_of_set_kernel (k : kernel_kind) x (n : navigation_state) :
  kernel_of k (set_kernel k x n) = x.
Proof. by destruct k. Qed.

Lemma candidates_reserve m kernel :
  candidates (reserve m kernel) = candidates kernel.
Proof. unfold reserve. by destruct (_ <? _). Qed.

Lemma next_reserve m kernel : next (reserve m kernel) = next kernel.
Proof. unfold reserve. by destruct (_ <? _). Qed.

Lemma capacity_reserve m kernel : m ≤ capacity (reserve m kernel).
Proof.
  unfold reserve. destruct (Nat.ltb_spec (capacity kernel) m); simpl; lia.
Qed.

Lemma reserve_enough m kernel :
  m ≤ capacity kernel → reserve m kernel = kernel.
Proof.
  intros H. unfold reserve.
  destruct (Nat.ltb_spec (capacity kernel) m); [lia | done].
Qed.

Lemma candidates_push_back c kernel :
  candidates (push_back c kernel) = candidates kernel ++ [c].
Proof. unfold push_back. by destruct (_ <=? _). Qed.

Lemma next_push_back c kernel : next (push_back c kernel) = next kernel.
Proof. unfold push_back. by destruct (_ <=? _). Qed.

Lemma is_exhausted_false_lt (kernel : navigation_kernel) (c : intersection) :
  candidates kernel !! next kernel = Some c →
  is_exhausted kernel = false ∧ empty kernel = false.
Proof.
  intros H. pose proof (lookup_lt_Some _ _ _ H) as Hlt.
  unfold is_exhausted, kernel_end, empty. split.
  - apply andb_false_iff. right. apply Nat.eqb_neq. lia.
  - destruct (candidates kernel); [simpl in Hlt; lia | done].
Qed.


(** ** The reached candidate: surfaces against portals *)

(** What the high-trust branch of [update_kernel] computes when the
    candidate under the cursor is found inside and within tolerance. *)
Lemma update_kernel_fuel_reached (fuel : nat) (k : kernel_kind)
    (navigation : navigation_state) (t : track) (cs : constituents)
    (cur : intersection) (s : object) (sfi : intersection) (lnk : dindex) :
  trust_geb (trust_level navigation) e_high_trust = true →
  next_stale (kernel_of k navigation) = false →
  candidates (kernel_of k navigation) !! next (kernel_of k navigation) = Some cur →
  at_index (objects cs) (index cur) = Some s →
  intersect t s (transforms cs) (masks cs) = (sfi, lnk) →
  sf_status sfi = e_inside →
  scalar_lt (path sfi) (on_surface_tolerance navigation) = true →
  update_kernel_fuel (S fuel) k navigation t cs =
    let reached := set_link lnk (set_index (index cur) sfi) in
    let navigation :=
      set_candidates k
        (<[next (kernel_of k navigation) := reached]>
           (candidates (kernel_of k navigation))) navigation in
    let navigation := set_distance_to_next (path sfi) navigation in
    let navigation := set_nav_status (on_object k) navigation in
    let navigation := set_current_index (index cur) navigation in
    Ok (true,
        match k with
        | surface_kind =>
            set_trust_level e_high_trust (increment_next k navigation)
        | portal_kind => navigation
        end).
Proof.
  intros Htrust Hfresh Hcur Hobj Hint Hin Htol.
  destruct (is_exhausted_false_lt _ _ Hcur) as [Hex Hemp].
  simpl. rewrite Hemp, Htrust, Hex. simpl.
  pose proof (proj2 (deref_Ok _ _) (conj Hfresh Hcur)) as Hderef.
  rewrite Hderef. simpl.
  unfold indexed_object. rewrite Hobj. simpl. rewrite Hint.
  unfold is_inside. simpl. rewrite Hin. simpl.
  destruct k; simpl; rewrite Htol; reflexivity.
Qed.

(** C10: when [update_kernel] finds the candidate under the cursor inside
    and within the on-surface tolerance, the surface kernel moves its
    cursor past the reached record and the trust level becomes high, while
    the portal kernel keeps the cursor on the reached record and the trust
    level as it was, so that [check_volume_switch] reads the neighbour link
    of that record. *)
Theorem update_kernel_reached_surface_vs_portal
    (navigation : navigation_state) (t : track) (cs : constituents)
    (k : kernel_kind) (cur : intersection) (s : object)
    (sfi : intersection) (lnk : dindex) :
  trust_geb (trust_level navigation) e_high_trust = true →
  next_stale (kernel_of k navigation) = false →
  candidates (kernel_of k navigation) !! next (kernel_of k navigation) = Some cur →
  at_index (objects cs) (index cur) = Some s →
  intersect t s (transforms cs) (masks cs) = (sfi, lnk) →
  sf_status sfi = e_inside →
  scalar_lt (path sfi) (on_surface_tolerance navigation) = true →
  ∃ navigation',
    update_kernel k navigation t cs = Ok (true, navigation') ∧
    nav_status navigation' = on_object k ∧
    current_index navigation' = index cur ∧
    match k with
    | surface_kind =>
        next (surface_kernel navigation') = S (next (surface_kernel navigation)) ∧
        trust_level navigation' = e_high_trust
    | portal_kind =>
        next (portal_kernel navigation') = next (portal_kernel navigation) ∧
        trust_level navigation' = trust_level navigation ∧
        deref (portal_kernel navigation') =
          Ok (set_link lnk (set_index (index cur) sfi)) ∧
        ∃ switched,
          check_volume_switch navigation' = Ok switched ∧
          volume_index switched = lnk
    end.
Proof.
  intros Htrust Hfresh Hcur Hobj Hint Hin Htol.
  unfold update_kernel.
  rewrite (update_kernel_fuel_reached _ k navigation t cs cur s sfi lnk) by done.
  eexists; split; [reflexivity|].
  pose proof (lookup_lt_Some _ _ _ Hcur) as Hlt.
  destruct k; simpl in *; repeat split; try done.
  - apply deref_Ok. simpl. split; [done|]. by apply list_lookup_insert_eq.
  - unfold check_volume_switch. simpl.
    unfold deref. simpl. rewrite Hfresh.
    rewrite list_lookup_insert_eq by done. simpl.
    eexists; split; [reflexivity|]. done.
Qed.


(** ** Stepping through the calls *)

Ltac invert_bind :=
  repeat match goal with
  | H : (_ ≫= _) = Ok _ |- _ =>
      apply bind_Ok in H; destruct H as (? & ? & H)
  | H : (let '(_, _) := ?p in _) = _ |- _ => destruct p eqn:?
  | H : Ok _ = Ok _ |- _ => injection H as H
  | H : (_, _) = (_, _) |- _ => injection H as ? ?
  end.

Ltac branch H :=
  repeat (invert_bind;
          match type of H with
          | (if ?c then _ else _) = _ => destruct c eqn:?
          | (match ?c with _ => _ end) = _ => destruct c eqn:?
          end);
  invert_bind.

(** ** The navigator never declares a target or an abort

    The statuses the navigator assigns are the four towards/on statuses;
    [e_unknown], [e_on_target] and [e_abort] are never assigned. *)

Definition navigating (s : navigation_status) : Prop :=
  s = e_towards_surface ∨ s = e_on_surface ∨
  s = e_towards_portal ∨ s = e_on_portal.

Definition kept_or_navigating (s s' : navigation_status) : Prop :=
  s' = s ∨ navigating s'.

Lemma kept_or_navigating_refl s : kept_or_navigating s s.
Proof. by left. Qed.

Lemma kept_or_navigating_trans s1 s2 s3 :
  kept_or_navigating s1 s2 → kept_or_navigating s2 s3 →
  kept_or_navigating s1 s3.
Proof. intros [-> | ?] [-> | ?]; unfold kept_or_navigating; auto. Qed.

Lemma navigating_towards k : navigating (towards k).
Proof. destruct k; unfold navigating; simpl; auto. Qed.

Lemma navigating_on_object k : navigating (on_object k).
Proof. destruct k; unfold navigating; simpl; auto. Qed.

Lemma sort_and_set_status k n n' :
  sort_and_set k n = Ok n' →
  kept_or_navigating (nav_status n) (nav_status n').
Proof.
  unfold sort_and_set. intros H. branch H; subst; simpl;
    first [by left | right; apply navigating_towards].
Qed.

Lemma intersect_objects_status k t cs objs si n :
  kept_or_navigating (nav_status n)
    (nav_status (intersect_objects k t cs objs si n)).
Proof.
  revert si n. induction objs as [|obj rest IH]; intros si n; simpl.
  - by left.
  - destruct (intersect t obj (transforms cs) (masks cs)) as [sfi lnk].
    destruct (is_inside _).
    + eapply kept_or_navigating_trans; [|apply IH].
      right. destruct k; apply (navigating_towards _).
    + apply IH.
Qed.

Lemma initialize_kernel_status k n t cs n' :
  initialize_kernel k n t cs = Ok n' →
  kept_or_navigating (nav_status n) (nav_status n').
Proof.
  unfold initialize_kernel. intros H.
  destruct (Nat.eqb _ _).
  - injection H as <-. by left.
  - eapply kept_or_navigating_trans; [|by eapply sort_and_set_status].
    eapply kept_or_navigating_trans; [|apply intersect_objects_status].
    destruct k; by left.
Qed.

Lemma exhaust_status k n : nav_status (exhaust k n) = nav_status n.
Proof. by destruct k. Qed.

Lemma update_kernel_fuel_status fuel k n t cs found n' :
  update_kernel_fuel fuel k n t cs = Ok (found, n') →
  kept_or_navigating (nav_status n) (nav_status n').
Proof.
  revert n found n'. induction fuel as [|fuel IH]; intros n found n' H;
    [discriminate|].
  simpl in H. 
  destruct (empty (kernel_of k n)).
  { branch H. subst. by eapply initialize_kernel_status. }
  destruct (trust_geb _ _ && _).
  { apply bind_Ok in H as (cur & _ & H).
    apply bind_Ok in H as (s & _ & H).
    destruct (intersect t s _ _) as [sfi lnk].
    destruct (is_inside _).
    - destruct (scalar_lt _ _); simpl in H.
      + destruct k; simpl in H; injection H as <- <-; simpl;
          right; unfold navigating; auto.
      + injection H as <- <-. simpl. right. apply navigating_towards.
    - apply bind_Ok in H as ([found' n''] & Hrec & H).
      apply IH in Hrec.
      destruct found'; injection H as <- <-.
      + by destruct k.
      + rewrite exhaust_status. by destruct k. }
  destruct (bool_decide _).
  { apply bind_Ok in H as (l & _ & H).
    apply bind_Ok in H as (n'' & Hs & H).
    apply sort_and_set_status in Hs.
    destruct (bool_decide _); injection H as <- <-.
    + by destruct k.
    + rewrite exhaust_status. by destruct k. }
  injection H as <- <-. rewrite exhaust_status. by left.
Qed.

Lemma update_kernel_status k n t cs found n' :
  update_kernel k n t cs = Ok (found, n') →
  kept_or_navigating (nav_status n) (nav_status n').
Proof. apply update_kernel_fuel_status. Qed.

Lemma check_volume_switch_status n n' :
  check_volume_switch n = Ok n' → nav_status n' = nav_status n.
Proof.
  unfold check_volume_switch. intros H.
  destruct (bool_decide _).
  - apply bind_Ok in H as (cur & _ & H). by injection H as <-.
  - by injection H as <-.
Qed.

Lemma status_kept_or_navigating n t n' :
  status n t = Ok n' → kept_or_navigating (nav_status n) (nav_status n').
Proof.
  unfold status. intros H.
  apply bind_Ok in H as (vol & _ & H).
  destruct (_ || _).
  - apply bind_Ok in H as (n1 & H1 & H).
    apply initialize_kernel_status in H1. simpl in H1.
    destruct (empty _).
    + apply bind_Ok in H as (n2 & H2 & H).
      apply initialize_kernel_status in H2.
      apply bind_Ok in H as (n3 & H3 & H).
      apply check_volume_switch_status in H3.
      injection H as <-. simpl. rewrite H3.
      by eapply kept_or_navigating_trans.
    + by injection H as <-.
  - apply bind_Ok in H as ([found n1] & H1 & H).
    assert (kept_or_navigating (nav_status n) (nav_status n1)) as Hk1.
    { destruct (negb _).
      - by apply update_kernel_status in H1.
      - injection H1 as <- <-. by left. }
    destruct found.
    + by injection H as <-.
    + apply bind_Ok in H as ([found2 n2] & H2 & H).
      apply update_kernel_status in H2.
      apply bind_Ok in H as (n3 & H3 & H).
      apply check_volume_switch_status in H3.
      injection H as <-. simpl. rewrite H3.
      by eapply kept_or_navigating_trans.
Qed.

Lemma target_kept_or_navigating n t n' :
  target n t = Ok n' → kept_or_navigating (nav_status n) (nav_status n').
Proof.
  unfold target. intros H.
  destruct (bool_decide (_ = e_full_trust)); [injection H as <-; by left|].
  apply bind_Ok in H as (vol & _ & H).
  destruct (bool_decide _); [|injection H as <-; by left].
  destruct (negb _).
  - destruct (is_exhausted _).
    + apply bind_Ok in H as ([found n1] & H1 & H).
      apply update_kernel_status in H1. by injection H as <-.
    + apply bind_Ok in H as ([found n1] & H1 & H).
      apply update_kernel_status in H1. simpl in H1.
      destruct found; [by injection H as <-|].
      apply bind_Ok in H as ([found2 n2] & H2 & H).
      apply update_kernel_status in H2. injection H as <-. simpl.
      by eapply kept_or_navigating_trans.
  - apply bind_Ok in H as ([found n1] & H1 & H).
    apply update_kernel_status in H1. by injection H as <-.
Qed.


(** ** The fuel always suffices

    [update_kernel] calls itself only after [++kernel.next] on a cursor in
    range, so the depth of the calls is at most the number of candidates
    from the cursor on: [update_kernel], [status] and [target] never end in
    [OutOfFuel]. *)

Lemma bind_fueled {A B} (m : result A) (f : A → result B) :
  m ≠ OutOfFuel → (∀ a, f a ≠ OutOfFuel) → (m ≫= f) ≠ OutOfFuel.
Proof. destruct m; simpl; auto. Qed.

Lemma access_fueled {A} (o : option A) : access o ≠ OutOfFuel.
Proof. by destruct o. Qed.

Lemma deref_fueled kernel : deref kernel ≠ OutOfFuel.
Proof.
  unfold deref. destruct (next_stale kernel); [done | apply access_fueled].
Qed.

Lemma sort_and_set_fueled k n : sort_and_set k n ≠ OutOfFuel.
Proof.
  unfold sort_and_set. destruct (negb _); [|done].
  apply bind_fueled; [apply deref_fueled | done].
Qed.

Lemma initialize_kernel_fueled k n t cs : initialize_kernel k n t cs ≠ OutOfFuel.
Proof.
  unfold initialize_kernel. destruct (Nat.eqb _ _); [done|].
  apply sort_and_set_fueled.
Qed.

Lemma reintersect_all_fueled t cs l : reintersect_all t cs l ≠ OutOfFuel.
Proof.
  induction l as [|c rest IH]; simpl; [done|].
  apply bind_fueled; [apply access_fueled|]. intros s.
  destruct (intersect t s _ _). by apply bind_fueled.
Qed.

Lemma update_kernel_fuel_enough fuel k n t cs :
  kernel_end (kernel_of k n) - next (kernel_of k n) < fuel →
  update_kernel_fuel fuel k n t cs ≠ OutOfFuel.
Proof.
  revert n. induction fuel as [|fuel IH]; intros n Hfuel; [lia|].
  simpl. destruct (empty _).
  { apply bind_fueled; [apply initialize_kernel_fueled | done]. }
  destruct (trust_geb _ _ && _).
  { unfold deref. destruct (next_stale (kernel_of k n)); [done|].
    destruct (candidates (kernel_of k n) !! next (kernel_of k n))
      as [cur|] eqn:Hcur; simpl; [|done].
    apply lookup_lt_Some in Hcur.
    apply bind_fueled; [apply access_fueled|]. intros s.
    destruct (intersect t s _ _) as [sfi lnk].
    destruct (is_inside _).
    - destruct (scalar_lt _ _); done.
    - apply bind_fueled.
      + apply IH. unfold kernel_end in *.
        unfold increment_next. rewrite !kernel_of_set_kernel. simpl. lia.
      + intros [[] ?]; done. }
  destruct (bool_decide _); [|done].
  apply bind_fueled; [apply reintersect_all_fueled|]. intros l.
  apply bind_fueled; [apply sort_and_set_fueled|]. intros n'.
  by destruct (bool_decide _).
Qed.

Lemma update_kernel_fueled k n t cs : update_kernel k n t cs ≠ OutOfFuel.
Proof. apply update_kernel_fuel_enough. lia. Qed.

Lemma check_volume_switch_fueled n : check_volume_switch n ≠ OutOfFuel.
Proof.
  unfold check_volume_switch. destruct (bool_decide _); [|done].
  apply bind_fueled; [apply deref_fueled | done].
Qed.

Lemma retrieve_volume_fueled n t : retrieve_volume n t ≠ OutOfFuel.
Proof.
  unfold retrieve_volume. destruct (negb _); [apply access_fueled | done].
Qed.

Lemma status_fueled n t : status n t ≠ OutOfFuel.
Proof.
  unfold status. apply bind_fueled; [apply retrieve_volume_fueled|].
  intros vol. destruct (_ || _).
  - apply bind_fueled; [apply initialize_kernel_fueled|]. intros n1.
    destruct (empty _); [|done].
    apply bind_fueled; [apply initialize_kernel_fueled|]. intros n2.
    apply bind_fueled; [apply check_volume_switch_fueled | done].
  - apply bind_fueled.
    + destruct (negb _); [apply update_kernel_fueled | done].
    + intros [[] n1]; [done|].
      apply bind_fueled; [apply update_kernel_fueled|]. intros [_ n2].
      apply bind_fueled; [apply check_volume_switch_fueled | done].
Qed.

Lemma target_fueled n t : target n t ≠ OutOfFuel.
Proof.
  unfold target. destruct (bool_decide _); [done|].
  apply bind_fueled; [apply retrieve_volume_fueled|]. intros vol.
  destruct (bool_decide _); [|done].
  destruct (negb _).
  - destruct (is_exhausted _).
    + apply bind_fueled; [apply update_kernel_fueled|]. by intros [_ n1].
    + apply bind_fueled; [apply update_kernel_fueled|].
      intros [[] n1]; [done|].
      apply bind_fueled; [apply update_kernel_fueled|]. by intros [_ n2].
  - apply bind_fueled; [apply update_kernel_fueled|]. by intros [_ n1].
Qed.

(** More fuel than needed does not change the result. *)
Lemma update_kernel_fuel_more fuel fuel' k n t cs r :
  update_kernel_fuel fuel k n t cs = Ok r → fuel ≤ fuel' →
  update_kernel_fuel fuel' k n t cs = Ok r.
Proof.
  revert fuel' n r. induction fuel as [|fuel IH]; intros fuel' n r H Hle;
    [discriminate|].
  destruct fuel' as [|fuel']; [lia|].
  simpl in *. destruct (empty _); [done|].
  destruct (trust_geb _ _ && _); [|done].
  destruct (deref _); simpl in *; try done.
  destruct (indexed_object _ _); simpl in *; try done.
  destruct (intersect t _ _ _) as [sfi lnk].
  destruct (is_inside _); [done|].
  apply bind_Ok in H as ([found n1] & Hrec & H).
  rewrite (IH fuel' _ _ Hrec) by lia. done.
Qed.


(** ** What sort_and_set computes

    On a kernel with candidates the two assignments behind the test on
    the tolerance are overwritten by the two that follow it: the result
    does not depend on the test. *)

Lemma sort_and_set_Ok k n n' :
  sort_and_set k n = Ok n' →
  (empty (kernel_of k n) = true ∧ n' = n) ∨
  (empty (kernel_of k n) = false ∧
   ∃ hd rest,
     sort (candidates (kernel_of k n)) = hd :: rest ∧
     n' = set_nav_status (towards k)
            (set_current_index dindex_invalid
               (set_distance_to_next (path hd)
                  (set_kernel k
                     {| candidates := hd :: rest; next := 0;
                        next_stale := false;
                        capacity := capacity (kernel_of k n) |}
                     (set_trust_level e_full_trust n))))).
Proof.
  unfold sort_and_set. intros H.
  destruct (empty (kernel_of k n)) eqn:Hempty; simpl in H.
  - left. by injection H as <-.
  - right. split; [done|].
    apply bind_Ok in H as (hd & Hhd & H).
    apply deref_Ok in Hhd as [_ Hhd].
    destruct k; simpl in *;
      (destruct (sort (candidates _)) as [|hd' rest] eqn:Hsort;
       [discriminate|]);
      injection Hhd as ->; exists hd, rest; (split; [done|]);
      destruct (scalar_lt _ _); by injection H as <-.
Qed.

(** ** What a kernel operation leaves alone

    An operation on one kernel does not touch the other kernel, the
    volume index, the tolerance or the inspector. *)

Definition other (k : kernel_kind) : kernel_kind :=
  match k with surface_kind => portal_kind | portal_kind => surface_kind end.

Definition same_frame (k : kernel_kind) (n n' : navigation_state) : Prop :=
  kernel_of (other k) n' = kernel_of (other k) n ∧
  volume_index n' = volume_index n ∧
  on_surface_tolerance n' = on_surface_tolerance n ∧
  inspector n' = inspector n.

Lemma same_frame_refl k n : same_frame k n n.
Proof. by repeat split. Qed.

Lemma same_frame_trans k n1 n2 n3 :
  same_frame k n1 n2 → same_frame k n2 n3 → same_frame k n1 n3.
Proof.
  unfold same_frame. intros (?&?&?&?) (?&?&?&?).
  repeat split; congruence.
Qed.

Lemma sort_and_set_frame k n n' :
  sort_and_set k n = Ok n' → same_frame k n n'.
Proof.
  intros [[_ ->] | (_ & hd & rest & _ & ->)]%sort_and_set_Ok.
  - apply same_frame_refl.
  - destruct k; by repeat split.
Qed.

Lemma intersect_objects_frame k t cs objs si n :
  same_frame k n (intersect_objects k t cs objs si n).
Proof.
  revert si n. induction objs as [|obj rest IH]; intros si n; simpl.
  - apply same_frame_refl.
  - destruct (intersect t obj _ _) as [sfi lnk].
    destruct (is_inside _); [|apply IH].
    eapply same_frame_trans; [|apply IH].
    destruct k; by repeat split.
Qed.

Lemma initialize_kernel_frame k n t cs n' :
  initialize_kernel k n t cs = Ok n' → same_frame k n n'.
Proof.
  unfold initialize_kernel. intros H. destruct (Nat.eqb _ _).
  - injection H as <-. apply same_frame_refl.
  - eapply same_frame_trans; [|by apply sort_and_set_frame].
    eapply same_frame_trans; [|apply intersect_objects_frame].
    destruct k; by repeat split.
Qed.

Lemma exhaust_frame k n : same_frame k n (exhaust k n).
Proof. destruct k; by repeat split. Qed.

Lemma update_kernel_fuel_frame fuel k n t cs found n' :
  update_kernel_fuel fuel k n t cs = Ok (found, n') → same_frame k n n'.
Proof.
  revert n found n'. induction fuel as [|fuel IH]; intros n found n' H;
    [discriminate|].
  simpl in H. destruct (empty _).
  { apply bind_Ok in H as (n1 & H1 & H). injection H as <- <-.
    by eapply initialize_kernel_frame. }
  destruct (trust_geb _ _ && _).
  { apply bind_Ok in H as (cur & _ & H).
    apply bind_Ok in H as (s & _ & H).
    destruct (intersect t s _ _) as [sfi lnk].
    destruct (is_inside _).
    - destruct (scalar_lt _ _); simpl in H; injection H as <- <-;
        destruct k; by repeat split.
    - apply bind_Ok in H as ([found' n1] & Hrec & H).
      apply IH in Hrec.
      assert (same_frame k n n1) as Hn1.
      { eapply same_frame_trans; [|exact Hrec]. destruct k; by repeat split. }
      destruct found'; injection H as <- <-; [done|].
      eapply same_frame_trans; [exact Hn1 | apply exhaust_frame]. }
  destruct (bool_decide _).
  { apply bind_Ok in H as (l & _ & H).
    apply bind_Ok in H as (n1 & Hs & H).
    apply sort_and_set_frame in Hs.
    assert (same_frame k n n1) as Hn1.
    { eapply same_frame_trans; [|exact Hs]. destruct k; by repeat split. }
    destruct (bool_decide _); injection H as <- <-; [done|].
    eapply same_frame_trans; [exact Hn1 | apply exhaust_frame]. }
  injection H as <- <-. apply exhaust_frame.
Qed.

Lemma update_kernel_frame k n t cs found n' :
  update_kernel k n t cs = Ok (found, n') → same_frame k n n'.
Proof. apply update_kernel_fuel_frame. Qed.

(** ** An exhausted kernel

    Every path on which [update_kernel] answers false ends in the same
    two assignments: the cursor goes to the end and the trust level
    becomes [e_no_trust]. *)

Lemma exhaust_exhausted k n :
  trust_level (exhaust k n) = e_no_trust ∧
  is_exhausted (kernel_of k (exhaust k n)) = true.
Proof.
  destruct k; simpl; (split; [done|]);
    unfold is_exhausted, kernel_end; simpl; apply Nat.eqb_refl.
Qed.

Lemma sort_and_set_trust k n n' :
  empty (kernel_of k n) = false → sort_and_set k n = Ok n' →
  trust_level n' = e_full_trust.
Proof.
  intros Hne [[He _] | (_ & hd & rest & _ & ->)]%sort_and_set_Ok;
    [congruence | by destruct k].
Qed.

Lemma update_kernel_fuel_false fuel k n t cs n' :
  update_kernel_fuel fuel k n t cs = Ok (false, n') →
  trust_level n' = e_no_trust ∧ is_exhausted (kernel_of k n') = true.
Proof.
  destruct fuel as [|fuel]; intros H; [discriminate|].
  simpl in H. destruct (empty _).
  { apply bind_Ok in H as (n1 & _ & H). discriminate. }
  destruct (trust_geb _ _ && _).
  { apply bind_Ok in H as (cur & _ & H).
    apply bind_Ok in H as (s & _ & H).
    destruct (intersect t s _ _) as [sfi lnk].
    destruct (is_inside _).
    - destruct (scalar_lt _ _); discriminate.
    - apply bind_Ok in H as ([[] n1] & _ & H); [discriminate|].
      injection H as <-. apply exhaust_exhausted. }
  destruct (bool_decide _).
  { apply bind_Ok in H as (l & _ & H).
    apply bind_Ok in H as (n1 & _ & H).
    destruct (bool_decide _); [discriminate|].
    injection H as <-. apply exhaust_exhausted. }
  injection H as <-. apply exhaust_exhausted.
Qed.


(** ** What is assumed of std::sort

    The result is a permutation of the argument in which no element is
    less than its predecessor. *)

Definition path_le (a b : intersection) : Prop := intersection_lt b a = false.

Hypothesis sort_perm : ∀ l, sort l ≡ₚ l.
Hypothesis sort_sorted : ∀ l, Sorted path_le (sort l).

(** ** The cursor *)

(** The iterator [next] is one of the present buffer, between
    [candidates.begin()] and [candidates.end()]. *)
Definition cursor_valid (kernel : navigation_kernel) : Prop :=
  next_stale kernel = false ∧ next kernel ≤ kernel_end kernel.

(** The cursor is valid in a kernel that holds candidates.  (That of an
    empty kernel is read by [check_volume_switch] only, on a status
    [e_on_portal].) *)
Definition cursor_sound (kernel : navigation_kernel) : Prop :=
  empty kernel = true ∨ cursor_valid kernel.

(** The kernel is as [clear] leaves it. *)
Definition cleared (kernel : navigation_kernel) : Prop :=
  kernel = clear kernel.

Lemma intersect_objects_next k t cs objs si n :
  next (kernel_of k (intersect_objects k t cs objs si n)) = next (kernel_of k n).
Proof.
  revert si n. induction objs as [|obj rest IH]; intros si n; simpl; [done|].
  destruct (intersect t obj _ _) as [sfi lnk].
  destruct (is_inside _); rewrite IH; [|done].
  rewrite kernel_of_set_kernel, next_push_back. by destruct k.
Qed.

Lemma reintersect_all_length t cs l l' :
  reintersect_all t cs l = Ok l' → length l' = length l.
Proof.
  revert l'. induction l as [|c rest IH]; intros l' H; simpl in H.
  - by injection H as <-.
  - apply bind_Ok in H as (s & _ & H).
    destruct (intersect t s _ _) as [sfi lnk].
    apply bind_Ok in H as (rest' & Hrest & H).
    injection H as <-. simpl. f_equal. by apply IH.
Qed.

Lemma empty_false_length (kernel : navigation_kernel) :
  empty kernel = false ↔ 0 < kernel_end kernel.
Proof.
  unfold empty, kernel_end. destruct (candidates kernel); simpl; split;
    intros; first [done | lia].
Qed.

Lemma empty_true_length (kernel : navigation_kernel) :
  empty kernel = true ↔ kernel_end kernel = 0.
Proof.
  unfold empty, kernel_end. destruct (candidates kernel); simpl; split;
    intros; first [done | lia].
Qed.

(** After [sort_and_set] on a kernel with candidates, the candidates are
    sorted, the cursor is at the head and the distance is the path of the
    head; the status is towards the object and the current index is the
    sentinel, whatever the path. *)
Lemma sort_and_set_sorted k n n' :
  empty (kernel_of k n) = false → sort_and_set k n = Ok n' →
  Sorted path_le (candidates (kernel_of k n')) ∧
  candidates (kernel_of k n') ≡ₚ candidates (kernel_of k n) ∧
  next (kernel_of k n') = 0 ∧
  (∃ hd, deref (kernel_of k n') = Ok hd ∧ distance_to_next n' = path hd) ∧
  nav_status n' = towards k ∧
  current_index n' = dindex_invalid ∧
  trust_level n' = e_full_trust.
Proof using sort_perm sort_sorted.
  intros Hne [[He _] | (_ & hd & rest & Hsort & ->)]%sort_and_set_Ok;
    [congruence|].
  pose proof (sort_sorted (candidates (kernel_of k n))) as Hs.
  pose proof (sort_perm (candidates (kernel_of k n))) as Hp.
  rewrite Hsort in Hs, Hp.
  destruct k; simpl; repeat split; try done; by exists hd.
Qed.

Lemma sort_and_set_total k n :
  ∃ n', sort_and_set k n = Ok n'.
Proof using sort_perm.
  unfold sort_and_set.
  destruct (empty (kernel_of k n)) eqn:Hempty; simpl; [by eexists|].
  pose proof (sort_perm (candidates (kernel_of k n))) as Hp.
  apply empty_false_length in Hempty. unfold kernel_end in Hempty.
  unfold deref.
  destruct k; simpl in *;
    (destruct (sort (candidates _)) as [|hd rest] eqn:Hsort;
     [apply Permutation_nil_l in Hp; rewrite <- Hp in Hempty;
      simpl in Hempty; lia|]);
    simpl; by eexists.
Qed.

Ltac kernel_arith k :=
  destruct k; simpl in *; unfold kernel_end in *; simpl in *;
  rewrite ?length_insert; repeat split; first [done | lia].

(** [update_kernel] never moves the cursor of a kernel with candidates
    backwards, and leaves it valid. *)
Lemma update_kernel_fuel_cursor fuel k n t cs found n' :
  empty (kernel_of k n) = false →
  cursor_valid (kernel_of k n) →
  update_kernel_fuel fuel k n t cs = Ok (found, n') →
  next (kernel_of k n) ≤ next (kernel_of k n') ∧
  cursor_valid (kernel_of k n') ∧
  kernel_end (kernel_of k n') = kernel_end (kernel_of k n).
Proof using sort_perm.
  revert n found n'.
  induction fuel as [|fuel IH]; intros n found n' Hne [Hfresh Hr] H;
    [discriminate|].
  unfold cursor_valid in *.
  simpl in H. rewrite Hne in H.
  destruct (trust_geb _ _ && _).
  { apply bind_Ok in H as (cur & Hcur & H).
    apply deref_Ok in Hcur as [_ Hcur]. apply lookup_lt_Some in Hcur.
    apply bind_Ok in H as (s & _ & H).
    destruct (intersect t s _ _) as [sfi lnk].
    destruct (is_inside _).
    - destruct (scalar_lt _ _); simpl in H; injection H as <- <-;
        kernel_arith k.
    - apply bind_Ok in H as ([found' n1] & Hrec & H).
      apply IH in Hrec as (Hle & [Hf1 Hr1] & Hend).
      2:{ unfold increment_next. rewrite kernel_of_set_kernel.
          unfold empty in *. by simpl. }
      2:{ unfold increment_next. rewrite kernel_of_set_kernel.
          unfold kernel_end. simpl. split; [done | lia]. }
      unfold increment_next in Hle, Hend.
      rewrite kernel_of_set_kernel in Hle, Hend.
      unfold kernel_end in *. simpl in Hle, Hend.
      destruct found'; injection H as <- <-; [repeat split; [lia|done|lia|done]|].
      kernel_arith k. }
  destruct (bool_decide (trust_level n = e_fair_trust)) eqn:Hfair.
  { apply bind_Ok in H as (l & Hl & H).
    apply reintersect_all_length in Hl.
    apply bind_Ok in H as (n1 & Hs & H).
    assert (kernel_end (kernel_of k n1) = kernel_end (kernel_of k n)
            ∧ trust_level n1 ≠ e_high_trust) as [Hlen Htrust].
    { apply bool_decide_eq_true in Hfair.
      apply sort_and_set_Ok in Hs as [[_ ->] | (_ & hd & rest & Hsort & ->)].
      - split; [|destruct k; simpl; congruence].
        unfold set_candidates, kernel_end.
        rewrite kernel_of_set_kernel. simpl. done.
      - split; [|by destruct k].
        pose proof (sort_perm
          (candidates (kernel_of k (set_candidates k l n)))) as Hp.
        rewrite Hsort in Hp. apply Permutation_length in Hp.
        unfold set_candidates in Hp. rewrite kernel_of_set_kernel in Hp.
        simpl in Hp.
        kernel_arith k. }
    rewrite bool_decide_eq_false_2 in H by done.
    injection H as <- <-.
    kernel_arith k. }
  injection H as <- <-. kernel_arith k.
Qed.


(** ** Records that are inside

    [initialize_kernel] keeps the inside hits only, and the high-trust
    branch of [update_kernel] overwrites a record only with an inside hit.
    The fair-trust branch overwrites every record with whatever the new
    intersection is; the navigator itself never sets the trust level to
    [e_fair_trust]. *)

Definition inside_only (kernel : navigation_kernel) : Prop :=
  Forall (λ c, sf_status c = e_inside) (candidates kernel).

Definition all_inside (n : navigation_state) : Prop :=
  inside_only (surface_kernel n) ∧ inside_only (portal_kernel n).

Lemma sort_and_set_inside k n n' :
  inside_only (kernel_of k n) → sort_and_set k n = Ok n' →
  inside_only (kernel_of k n').
Proof using sort_perm.
  intros Hin [[_ ->] | (_ & hd & rest & Hsort & ->)]%sort_and_set_Ok;
    [done|].
  unfold inside_only in *.
  pose proof (sort_perm (candidates (kernel_of k n))) as Hp.
  rewrite Hsort in Hp. rewrite <- Hp in Hin. by destruct k.
Qed.

Lemma sort_and_set_not_fair k n n' :
  trust_level n ≠ e_fair_trust → sort_and_set k n = Ok n' →
  trust_level n' ≠ e_fair_trust.
Proof.
  intros Hin [[_ ->] | (_ & hd & rest & Hsort & ->)]%sort_and_set_Ok;
    [done|]. by destruct k.
Qed.

Lemma intersect_objects_inside k t cs objs si n :
  inside_only (kernel_of k n) →
  inside_only (kernel_of k (intersect_objects k t cs objs si n)).
Proof.
  revert si n. induction objs as [|obj rest IH]; intros si n Hin; simpl;
    [done|].
  destruct (intersect t obj _ _) as [sfi lnk].
  destruct (is_inside _) eqn:Hsfi; apply IH; [|done].
  apply bool_decide_eq_true in Hsfi.
  unfold inside_only in *.
  rewrite kernel_of_set_kernel, candidates_push_back.
  destruct k; simpl in *; apply Forall_app; split; try done;
    by apply Forall_singleton.
Qed.

Lemma intersect_objects_trust k t cs objs si n :
  trust_level (intersect_objects k t cs objs si n) = trust_level n.
Proof.
  revert si n. induction objs as [|obj rest IH]; intros si n; simpl; [done|].
  destruct (intersect t obj _ _) as [sfi lnk].
  destruct (is_inside _); rewrite IH; [|done]. by destruct k.
Qed.

Lemma candidates_reserved k m n :
  candidates (kernel_of k (set_kernel k (reserve m (kernel_of k n)) n))
  = candidates (kernel_of k n).
Proof. by rewrite kernel_of_set_kernel, candidates_reserve. Qed.

Lemma initialize_kernel_inside k n t cs n' :
  inside_only (kernel_of k n) → initialize_kernel k n t cs = Ok n' →
  inside_only (kernel_of k n').
Proof using sort_perm.
  unfold initialize_kernel. intros Hin H. destruct (Nat.eqb _ _).
  - by injection H as <-.
  - eapply sort_and_set_inside; [|exact H].
    apply intersect_objects_inside.
    unfold inside_only. by rewrite candidates_reserved.
Qed.

Lemma initialize_kernel_not_fair k n t cs n' :
  trust_level n ≠ e_fair_trust → initialize_kernel k n t cs = Ok n' →
  trust_level n' ≠ e_fair_trust.
Proof.
  unfold initialize_kernel. intros Hin H. destruct (Nat.eqb _ _).
  - by injection H as <-.
  - eapply sort_and_set_not_fair; [|exact H].
    rewrite intersect_objects_trust. by destruct k.
Qed.

Lemma update_kernel_fuel_inside fuel k n t cs found n' :
  trust_level n ≠ e_fair_trust →
  inside_only (kernel_of k n) →
  update_kernel_fuel fuel k n t cs = Ok (found, n') →
  inside_only (kernel_of k n') ∧ trust_level n' ≠ e_fair_trust.
Proof using sort_perm.
  revert n found n'.
  induction fuel as [|fuel IH]; intros n found n' Hnf Hin H; [discriminate|].
  simpl in H. destruct (empty _).
  { apply bind_Ok in H as (n1 & H1 & H). injection H as <- <-.
    split; [by eapply initialize_kernel_inside
           | by eapply initialize_kernel_not_fair]. }
  destruct (trust_geb _ _ && _).
  { apply bind_Ok in H as (cur & _ & H).
    apply bind_Ok in H as (s & _ & H).
    destruct (intersect t s _ _) as [sfi lnk].
    destruct (is_inside _) eqn:Hsfi.
    - apply bool_decide_eq_true in Hsfi. unfold inside_only in *.
      destruct (scalar_lt _ _); simpl in H; injection H as <- <-;
        destruct k; simpl in *; split; try done; by apply Forall_insert.
    - apply bind_Ok in H as ([found' n1] & Hrec & H).
      apply IH in Hrec as [Hin1 Hnf1]; [| by destruct k | by destruct k].
      destruct found'; injection H as <- <-; [done|].
      by destruct k. }
  rewrite bool_decide_eq_false_2 in H by done.
  injection H as <- <-. by destruct k.
Qed.

Lemma update_kernel_inside k n t cs found n' :
  trust_level n ≠ e_fair_trust →
  inside_only (kernel_of k n) →
  update_kernel k n t cs = Ok (found, n') →
  inside_only (kernel_of k n') ∧ trust_level n' ≠ e_fair_trust.
Proof using sort_perm. apply update_kernel_fuel_inside. Qed.

Lemma check_volume_switch_inside n n' :
  all_inside n → check_volume_switch n = Ok n' → all_inside n'.
Proof.
  unfold check_volume_switch. intros Hin H. destruct (bool_decide _).
  - apply bind_Ok in H as (cur & _ & H). injection H as <-.
    split; apply Forall_nil_2.
  - by injection H as <-.
Qed.

Lemma initialize_kernel_all_inside k n t cs n' :
  all_inside n → initialize_kernel k n t cs = Ok n' → all_inside n'.
Proof using sort_perm.
  intros [Hs Hp] H.
  pose proof (initialize_kernel_frame _ _ _ _ _ H) as (Ho & _).
  destruct k; simpl in Ho; split; try (by rewrite Ho).
  - by apply (initialize_kernel_inside surface_kind n t cs n').
  - by apply (initialize_kernel_inside portal_kind n t cs n').
Qed.

Lemma update_kernel_all_inside k n t cs found n' :
  trust_level n ≠ e_fair_trust → all_inside n →
  update_kernel k n t cs = Ok (found, n') →
  all_inside n' ∧ trust_level n' ≠ e_fair_trust.
Proof using sort_perm.
  intros Hnf [Hs Hp] H.
  pose proof (update_kernel_frame _ _ _ _ _ _ H) as (Ho & _).
  destruct k; simpl in Ho;
    (eapply update_kernel_inside in H as [Hk Hnf']; [|done|done]);
    repeat split; try done; by rewrite Ho.
Qed.

Lemma status_all_inside n t n' :
  trust_level n ≠ e_fair_trust → all_inside n →
  status n t = Ok n' → all_inside n'.
Proof using sort_perm.
  unfold status. intros Hnf Hin H.
  apply bind_Ok in H as (vol & _ & H).
  destruct (_ || _).
  - apply bind_Ok in H as (n1 & H1 & H).
    apply initialize_kernel_all_inside in H1; [|done].
    destruct (empty _); [|by injection H as <-].
    apply bind_Ok in H as (n2 & H2 & H).
    apply initialize_kernel_all_inside in H2; [|done].
    apply bind_Ok in H as (n3 & H3 & H).
    apply check_volume_switch_inside in H3; [|done].
    by injection H as <-.
  - apply bind_Ok in H as ([found n1] & H1 & H).
    assert (all_inside n1 ∧ trust_level n1 ≠ e_fair_trust) as [Hin1 Hnf1].
    { destruct (negb _).
      - by eapply update_kernel_all_inside in H1.
      - by injection H1 as <- <-. }
    destruct found; [by injection H as <-|].
    apply bind_Ok in H as ([found2 n2] & H2 & H).
    eapply update_kernel_all_inside in H2 as [Hin2 _]; [|done|done].
    apply bind_Ok in H as (n3 & H3 & H).
    apply check_volume_switch_inside in H3; [|done].
    by injection H as <-.
Qed.

Lemma target_all_inside n t n' :
  trust_level n ≠ e_fair_trust → all_inside n →
  target n t = Ok n' → all_inside n'.
Proof using sort_perm.
  unfold target. intros Hnf Hin H.
  destruct (bool_decide (_ = e_full_trust)); [by injection H as <-|].
  apply bind_Ok in H as (vol & _ & H).
  destruct (bool_decide _); [|by injection H as <-].
  destruct (negb _).
  - destruct (is_exhausted _).
    + apply bind_Ok in H as ([found n1] & H1 & H).
      eapply update_kernel_all_inside in H1 as [Hin1 _]; [|done|].
      * by injection H as <-.
      * destruct Hin as [_ Hp]. split; [apply Forall_nil_2 | done].
    + apply bind_Ok in H as ([found n1] & H1 & H).
      eapply update_kernel_all_inside in H1 as [Hin1 Hnf1]; [|done|done].
      destruct found; [by injection H as <-|].
      apply bind_Ok in H as ([found2 n2] & H2 & H).
      eapply update_kernel_all_inside in H2 as [Hin2 _]; [|done|done].
      by injection H as <-.
  - apply bind_Ok in H as ([found n1] & H1 & H).
    eapply update_kernel_all_inside in H1 as [Hin1 _]; [|done|done].
    by injection H as <-.
Qed.


(** ** The volume switch *)

(** C2 (as amended): on a portal, [check_volume_switch] reads the link of
    the record under the cursor of the portal kernel into the volume index,
    clears both kernels and sets the trust level to [e_no_trust]; every
    other member keeps its value, the status among them: it stays
    [e_on_portal]. *)
Theorem check_volume_switch_on_portal (n : navigation_state) (cur : intersection) :
  nav_status n = e_on_portal →
  deref (portal_kernel n) = Ok cur →
  check_volume_switch n =
    Ok {| surface_kernel :=
            {| candidates := []; next := 0; next_stale := false;
               capacity := capacity (surface_kernel n) |};
          portal_kernel :=
            {| candidates := []; next := 0; next_stale := false;
               capacity := capacity (portal_kernel n) |};
          volume_index := link cur;
          distance_to_next := distance_to_next n;
          on_surface_tolerance := on_surface_tolerance n;
          inspector := inspector n;
          nav_status := e_on_portal;
          current_index := current_index n;
          trust_level := e_no_trust |}.
Proof.
  intros Hst Hcur. unfold check_volume_switch.
  rewrite Hcur. destruct n; simpl in *. subst. reflexivity.
Qed.

Lemma navigating_not_terminal s :
  navigating s → s ≠ e_on_target ∧ s ≠ e_abort.
Proof. intros [-> | [-> | [-> | ->]]]; done. Qed.

Lemma not_terminal_kept s s' :
  kept_or_navigating s s' → navigating s →
  s' ≠ e_on_target ∧ s' ≠ e_abort.
Proof. intros [-> | Hs'] Hs; by apply navigating_not_terminal. Qed.

(** C4 (as amended): the volume switch does not look at the link it
    reads.  The world sentinel and every other value end up in the volume
    index in the same way, both kernels are cleared, and the status stays
    [e_on_portal]; no later [status] or [target] call turns it into
    [e_on_target] or [e_abort]. *)
Theorem check_volume_switch_any_link (n : navigation_state) (cur : intersection) :
  nav_status n = e_on_portal →
  deref (portal_kernel n) = Ok cur →
  ∃ n',
    check_volume_switch n = Ok n' ∧
    volume_index n' = link cur ∧
    empty (surface_kernel n') = true ∧
    empty (portal_kernel n') = true ∧
    nav_status n' = e_on_portal ∧
    ∀ t n'',
      status n' t = Ok n'' ∨ target n' t = Ok n'' →
      nav_status n'' ≠ e_on_target ∧ nav_status n'' ≠ e_abort.
Proof.
  intros Hst Hcur. unfold check_volume_switch.
  rewrite Hcur. rewrite bool_decide_eq_true_2 by exact Hst. simpl.
  eexists. split; [reflexivity|].
  do 3 (split; [reflexivity|]). split; [exact Hst|].
  intros t n'' H.
  assert (kept_or_navigating e_on_portal (nav_status n'')) as Hk.
  { rewrite <- Hst.
    destruct H as [H | H];
      [apply status_kept_or_navigating in H
      |apply target_kept_or_navigating in H]; exact H. }
  eapply not_terminal_kept; [exact Hk|]. unfold navigating. auto.
Qed.

(** ** An exhausted kernel and the calls after it *)

Lemma target_without_trust n t n' :
  trust_level n = e_no_trust → target n t = Ok n' →
  ∃ vol, retrieve_volume n t = Ok vol ∧
         n' = inspect (set_volume_index (vol_index vol) n).
Proof.
  unfold target. intros Hnt H. rewrite Hnt in H. simpl in H.
  apply bind_Ok in H as (vol & Hvol & H). exists vol. split; [done|].
  simpl in H. rewrite Hnt in H. simpl in H. by injection H as <-.
Qed.

(** C5 (as amended): when [update_kernel] finds the kernel exhausted it
    puts the cursor at the end, sets the trust level to [e_no_trust] and
    answers false.  Nothing is set to abort: a [status] or [target] call
    that follows leaves a status [e_abort] or [e_on_target] only if the
    status had that value before, and a [target] call at this trust level
    leaves the distance to next, the status and both kernels as they
    were. *)
Theorem exhausted_kernel_no_abort (k : kernel_kind) (n : navigation_state)
    (t : track) (cs : constituents) (n1 : navigation_state) :
  update_kernel k n t cs = Ok (false, n1) →
  trust_level n1 = e_no_trust ∧
  is_exhausted (kernel_of k n1) = true ∧
  (∀ t' n2,
     status n1 t' = Ok n2 ∨ target n1 t' = Ok n2 →
     (nav_status n2 = e_abort → nav_status n = e_abort) ∧
     (nav_status n2 = e_on_target → nav_status n = e_on_target)) ∧
  (∀ t' n2,
     target n1 t' = Ok n2 →
     distance_to_next n2 = distance_to_next n1 ∧
     nav_status n2 = nav_status n1 ∧
     surface_kernel n2 = surface_kernel n1 ∧
     portal_kernel n2 = portal_kernel n1 ∧
     trust_level n2 = e_no_trust).
Proof.
  intros H.
  pose proof (update_kernel_status _ _ _ _ _ _ H) as Hk.
  apply update_kernel_fuel_false in H as [Htrust Hex].
  repeat split; try done.
  - intros Hab. destruct H as [H | H];
      [apply status_kept_or_navigating in H
      |apply target_kept_or_navigating in H];
      pose proof (kept_or_navigating_trans _ _ _ Hk H) as [Heq | Hnav];
      try congruence;
      apply navigating_not_terminal in Hnav as [_ Hnav]; done.
  - intros Hab. destruct H as [H | H];
      [apply status_kept_or_navigating in H
      |apply target_kept_or_navigating in H];
      pose proof (kept_or_navigating_trans _ _ _ Hk H) as [Heq | Hnav];
      try congruence;
      apply navigating_not_terminal in Hnav as [Hnav _]; done.
  - by apply target_without_trust in H as (vol & _ & ->).
  - by apply target_without_trust in H as (vol & _ & ->).
  - by apply target_without_trust in H as (vol & _ & ->).
  - by apply target_without_trust in H as (vol & _ & ->).
  - by apply target_without_trust in H as (vol & _ & ->).
Qed.

(** ** Order of the candidates and the cursor *)

(** The cursor of the kernel [k] has not moved backwards from [n] to [n'],
    and it is valid in [n'], where the kernel still has candidates. *)
Definition advanced (k : kernel_kind) (n n' : navigation_state) : Prop :=
  next (kernel_of k n) ≤ next (kernel_of k n') ∧
  cursor_valid (kernel_of k n') ∧
  empty (kernel_of k n') = false.

Lemma advanced_same k n n' :
  empty (kernel_of k n) = false → cursor_valid (kernel_of k n) →
  kernel_of k n' = kernel_of k n → advanced k n n'.
Proof. intros Hne Hv Heq. unfold advanced. rewrite Heq. split; [lia | done]. Qed.

Lemma advanced_trans k n1 n2 n3 :
  advanced k n1 n2 → advanced k n2 n3 → advanced k n1 n3.
Proof.
  intros (Hle & _ & _) (Hle' & Hv & Hne). split; [lia | done].
Qed.

Lemma update_kernel_advances k k' n t cs found n' :
  empty (kernel_of k n) = false → cursor_valid (kernel_of k n) →
  update_kernel k' n t cs = Ok (found, n') → advanced k n n'.
Proof using sort_perm.
  intros Hne Hv H.
  assert (k' = k ∨ k = other k') as [-> | ->] by (destruct k, k'; auto).
  - destruct (update_kernel_fuel_cursor _ _ _ _ _ _ _ Hne Hv H)
      as (Hle & Hv' & Hend).
    split; [done|]. split; [done|].
    apply empty_false_length. rewrite Hend. by apply empty_false_length.
  - apply update_kernel_frame in H as (Ho & _). by apply advanced_same.
Qed.

Lemma check_volume_switch_kernels n n' :
  check_volume_switch n = Ok n' →
  n' = n ∨ ∀ k, cleared (kernel_of k n').
Proof.
  unfold check_volume_switch. intros H.
  destruct (bool_decide _).
  - apply bind_Ok in H as (cur & _ & H). injection H as <-.
    right. by intros [].
  - injection H as <-. by left.
Qed.

(** A [status] call that does not start without trust, on a kernel with
    candidates and a valid cursor: the volume is switched and the kernel
    cleared, or the cursor has not moved backwards. *)
Lemma status_cursor k n t vol n' :
  retrieve_volume n t = Ok vol →
  vol_index vol ≠ dindex_invalid →
  trust_level n ≠ e_no_trust →
  empty (kernel_of k n) = false → cursor_valid (kernel_of k n) →
  status n t = Ok n' →
  cleared (kernel_of k n') ∨ advanced k n n'.
Proof using sort_perm.
  intros Hvol Hvi Htr Hne Hv H. unfold status in H. rewrite Hvol in H.
  cbn [mbind result_bind] in H. cbn zeta in H.
  assert (trust_level (set_volume_index (vol_index vol) n) ≠ e_no_trust)
    as Ht0 by done.
  assert (volume_index (set_volume_index (vol_index vol) n) = vol_index vol)
    as Hv0 by done.
  assert (advanced k n (set_volume_index (vol_index vol) n)) as Ha0
    by (apply advanced_same; [done | done | by destruct k]).
  set (n0 := set_volume_index (vol_index vol) n) in *. clearbody n0.
  rewrite Hv0, (proj2 (N.eqb_neq _ _) Hvi) in H.
  rewrite bool_decide_eq_false_2 in H by done. simpl in H.
  apply bind_Ok in H as ([found n1] & H1 & H).
  assert (advanced k n n1) as Ha1.
  { destruct (negb _).
    - eapply advanced_trans; [exact Ha0|].
      destruct Ha0 as (_ & Hv' & Hne').
      by eapply update_kernel_advances.
    - by injection H1 as <- <-. }
  destruct found.
  { injection H as <-. right.
    eapply advanced_trans; [exact Ha1|].
    destruct Ha1 as (_ & Hv' & Hne').
    apply advanced_same; [done | done | by destruct k]. }
  apply bind_Ok in H as ([found2 n2] & H2 & H).
  apply bind_Ok in H as (n3 & H3 & H). injection H as <-.
  assert (advanced k n n2) as Ha2.
  { eapply advanced_trans; [exact Ha1|].
    destruct Ha1 as (_ & Hv' & Hne').
    by eapply update_kernel_advances. }
  apply check_volume_switch_kernels in H3 as [-> | Hcl].
  - right. eapply advanced_trans; [exact Ha2|].
    destruct Ha2 as (_ & Hv' & Hne').
    apply advanced_same; [done | done | by destruct k].
  - left. specialize (Hcl k). by destruct k.
Qed.

(** A [target] call on a kernel with candidates and a valid cursor: the
    kernel is cleared, or the cursor has not moved backwards. *)
Lemma target_cursor k n t n' :
  empty (kernel_of k n) = false → cursor_valid (kernel_of k n) →
  target n t = Ok n' →
  cleared (kernel_of k n') ∨ advanced k n n'.
Proof using sort_perm.
  intros Hne Hv H. unfold target in H.
  destruct (bool_decide (_ = e_full_trust)).
  { injection H as <-. right. by apply advanced_same. }
  apply bind_Ok in H as (vol & _ & H). cbn zeta in H.
  assert (advanced k n (set_volume_index (vol_index vol) n)) as Ha0
    by (apply advanced_same; [done | done | by destruct k]).
  set (n0 := set_volume_index (vol_index vol) n) in *. clearbody n0.
  assert (∀ n1, advanced k n n1 → advanced k n (inspect n1)) as Hinspect.
  { intros n1 Ha1. eapply advanced_trans; [exact Ha1|].
    destruct Ha1 as (_ & Hv' & Hne').
    apply advanced_same; [done | done | by destruct k]. }
  assert (∀ k' n1 cs found n2,
            advanced k n n1 → update_kernel k' n1 t cs = Ok (found, n2) →
            advanced k n n2) as Hupdate.
  { intros k' n1 cs found n2 Ha1 Hup.
    eapply advanced_trans; [exact Ha1|].
    destruct Ha1 as (_ & Hv' & Hne').
    by eapply update_kernel_advances. }
  destruct (bool_decide _).
  2:{ injection H as <-. right. by apply Hinspect. }
  destruct (negb _).
  - destruct (is_exhausted _).
    + apply bind_Ok in H as ([found n1] & H1 & H). injection H as <-.
      destruct k.
      * left. apply update_kernel_frame in H1 as (Ho & _).
        simpl in Ho. unfold cleared. simpl. rewrite Ho. done.
      * right. apply Hinspect. eapply Hupdate; [|exact H1].
        eapply advanced_trans; [exact Ha0|].
        destruct Ha0 as (_ & Hv' & Hne').
        by apply advanced_same.
    + apply bind_Ok in H as ([found n1] & H1 & H).
      pose proof (Hupdate _ _ _ _ _ Ha0 H1) as Ha1.
      destruct found; [injection H as <-; right; by apply Hinspect|].
      apply bind_Ok in H as ([found2 n2] & H2 & H). injection H as <-.
      right. apply Hinspect. by eapply Hupdate.
  - apply bind_Ok in H as ([found n1] & H1 & H). injection H as <-.
    right. apply Hinspect. by eapply Hupdate.
Qed.

Lemma initialize_kernel_sorted k n t cs n' :
  initialize_kernel k n t cs = Ok n' →
  empty (kernel_of k n) = true →
  empty (kernel_of k n') = false →
  Sorted path_le (candidates (kernel_of k n')) ∧
  next (kernel_of k n') = 0 ∧
  next_stale (kernel_of k n') = false.
Proof using sort_perm sort_sorted.
  unfold initialize_kernel. intros H He Hne.
  destruct (Nat.eqb _ _); [injection H as <-; congruence|].
  pose proof H as H'.
  apply sort_and_set_Ok in H' as [[He' ->] | (_ & hd & rest & Hsort & ->)].
  - congruence.
  - pose proof (sort_sorted (candidates (kernel_of k
      (intersect_objects k t cs (objects cs) 0%N
         (set_kernel k (reserve (length (objects cs)) (kernel_of k n)) n)))))
      as Hs.
    rewrite Hsort in Hs. by destruct k.
Qed.

(** C6 (as amended): [sort_and_set] leaves the candidates of a kernel
    sorted by ascending path with the cursor at the head, and so does
    [update_kernel] with an empty kernel that it fills.  On a kernel with
    candidates and a valid cursor, [update_kernel] never moves the cursor
    backwards and leaves it valid; [target], and [status] when it is not
    entered without trust, clear the kernel or leave its cursor valid and
    not further back.  (The high-trust branch of [update_kernel] overwrites
    the record under the cursor in place and does not sort again; [status]
    without trust puts the cursor back to the head.) *)
Theorem sorted_at_sort_and_set_cursor_forward (k : kernel_kind)
    (n : navigation_state) (t : track) (cs : constituents) :
  (∀ n', empty (kernel_of k n) = false → sort_and_set k n = Ok n' →
         Sorted path_le (candidates (kernel_of k n')) ∧
         next (kernel_of k n') = 0 ∧
         next_stale (kernel_of k n') = false) ∧
  (∀ found n', empty (kernel_of k n) = true →
               update_kernel k n t cs = Ok (found, n') →
               empty (kernel_of k n') = false →
               Sorted path_le (candidates (kernel_of k n')) ∧
               next (kernel_of k n') = 0 ∧
               next_stale (kernel_of k n') = false) ∧
  (empty (kernel_of k n) = false → cursor_valid (kernel_of k n) →
   (∀ found n', update_kernel k n t cs = Ok (found, n') →
                next (kernel_of k n) ≤ next (kernel_of k n') ∧
                cursor_valid (kernel_of k n')) ∧
   (∀ n', target n t = Ok n' →
          cleared (kernel_of k n') ∨
          next (kernel_of k n) ≤ next (kernel_of k n') ∧
          cursor_valid (kernel_of k n')) ∧
   (∀ vol n', retrieve_volume n t = Ok vol →
              vol_index vol ≠ dindex_invalid →
              trust_level n ≠ e_no_trust →
              status n t = Ok n' →
              cleared (kernel_of k n') ∨
              next (kernel_of k n) ≤ next (kernel_of k n') ∧
              cursor_valid (kernel_of k n'))).
Proof using sort_perm sort_sorted.
  split; [|split].
  - intros n' Hne H.
    destruct (sort_and_set_sorted k n n' Hne H) as (Hs & _ & Hn & _).
    split; [done|]. split; [done|].
    apply sort_and_set_Ok in H as [[He _] | (_ & hd & rest & _ & ->)];
      [congruence | by destruct k].
  - intros found n' He H Hne. unfold update_kernel in H. simpl in H.
    rewrite He in H. apply bind_Ok in H as (n1 & H1 & H).
    injection H as _ <-. by apply (initialize_kernel_sorted k n t cs).
  - intros Hne Hv. split; [|split].
    + intros found n' H.
      by destruct (update_kernel_fuel_cursor _ _ _ _ _ _ _ Hne Hv H)
        as (? & ? & _).
    + intros n' H.
      destruct (target_cursor k n t n' Hne Hv H) as [Hc | (? & ? & _)];
        [by left | by right].
    + intros vol n' Hvol Hvi Htr H.
      destruct (status_cursor k n t vol n' Hvol Hvi Htr Hne Hv H)
        as [Hc | (? & ? & _)]; [by left | by right].
Qed.

(** ** Records that are inside *)

(** Under high or full trust [update_kernel] removes no record of a kernel
    with candidates: a record whose intersection is no longer inside stays
    where it is and the cursor moves past it. *)
Lemma update_kernel_fuel_keeps_records fuel k n t cs found n' :
  trust_geb (trust_level n) e_high_trust = true →
  empty (kernel_of k n) = false →
  update_kernel_fuel fuel k n t cs = Ok (found, n') →
  kernel_end (kernel_of k n') = kernel_end (kernel_of k n).
Proof.
  revert n found n'.
  induction fuel as [|fuel IH]; intros n found n' Htrust Hne H; [discriminate|].
  simpl in H. rewrite Hne, Htrust in H. simpl in H.
  destruct (negb (is_exhausted (kernel_of k n))).
  - apply bind_Ok in H as (cur & _ & H).
    apply bind_Ok in H as (s & _ & H).
    destruct (intersect t s _ _) as [sfi lnk].
    destruct (is_inside _).
    + destruct (scalar_lt _ _); simpl in H; injection H as <- <-;
        destruct k; unfold kernel_end; simpl; by rewrite length_insert.
    + apply bind_Ok in H as ([found' n1] & Hrec & H).
      apply IH in Hrec; [| by destruct k | by destruct k].
      assert (kernel_end (kernel_of k n1) = kernel_end (kernel_of k n)) as Hn1
        by (rewrite Hrec; by destruct k).
      destruct found'; injection H as <- <-; [done|].
      rewrite <- Hn1. by destruct k.
  - assert (bool_decide (trust_level n = e_fair_trust) = false) as Hnf.
    { apply bool_decide_eq_false. intros Heq. by rewrite Heq in Htrust. }
    rewrite Hnf in H. injection H as <- <-. by destruct k.
Qed.

(** C7 (as amended): when the trust level on entry is not
    [e_fair_trust], [status] and [target] keep the property that every
    record of both kernels is inside.  A record whose re-intersection
    fails under high or full trust is stepped over, not removed: the
    kernel keeps the number of its records.  (The fair-trust branch
    overwrites every record with its new intersection, whatever its
    status.) *)
Theorem inside_records_kept (n : navigation_state) (t : track)
    (n' : navigation_state) :
  trust_level n ≠ e_fair_trust →
  all_inside n →
  status n t = Ok n' ∨ target n t = Ok n' →
  all_inside n' ∧
  ∀ k cs found n'',
    trust_geb (trust_level n) e_high_trust = true →
    empty (kernel_of k n) = false →
    update_kernel k n t cs = Ok (found, n'') →
    length (candidates (kernel_of k n'')) = length (candidates (kernel_of k n)).
Proof using sort_perm.
  intros Hnf Hin H. split.
  - destruct H as [H | H];
      [by eapply status_all_inside | by eapply target_all_inside].
  - intros k cs found n'' Htrust Hne Hup.
    by apply (update_kernel_fuel_keeps_records _ _ _ _ _ _ _ Htrust Hne Hup).
Qed.

(** ** Calls that do no work *)

(** C9 (as amended): neither call looks at the status on entry.  The one
    early return is in [target], taken when the trust level is
    [e_full_trust], whatever the status: the state is returned as it is
    and the inspector is not called. *)
Theorem target_full_trust_no_work (n : navigation_state) (t : track) :
  trust_level n = e_full_trust → target n t = Ok n.
Proof. intros H. unfold target. by rewrite H. Qed.


(** ** A second call with the track unchanged

    [status] has no early return at full trust: at [e_high_trust] and at
    [e_full_trust] alike it intersects the candidate under the cursor
    again, or initialises an empty kernel again.  The call changes nothing
    but the inspector when that candidate is already as the intersection
    says and is not within the tolerance, or when the track hits nothing. *)

Definition active_kind (n : navigation_state) : kernel_kind :=
  if is_exhausted (surface_kernel n) then portal_kind else surface_kind.

Definition store_of (k : kernel_kind) (vol : volume) : constituents :=
  match k with surface_kind => surfaces vol | portal_kind => portals vol end.

(** The record is what [intersect] gives for its object and this track. *)
Definition up_to_date (t : track) (cs : constituents) (c : intersection) : Prop :=
  ∃ s sfi lnk,
    at_index (objects cs) (index c) = Some s ∧
    intersect t s (transforms cs) (masks cs) = (sfi, lnk) ∧
    c = set_link lnk (set_index (index c) sfi).

(** The records the loop of [initialize_kernel] pushes for the objects
    [objs], the first of which has the index [si]. *)
Fixpoint inside_hits (t : track) (cs : constituents) (objs : list object)
    (si : dindex) : list intersection :=
  match objs with
  | [] => []
  | obj :: rest =>
      let '(sfi, lnk) := intersect t obj (transforms cs) (masks cs) in
      let sfi := set_link lnk (set_index si sfi) in
      if is_inside sfi then sfi :: inside_hits t cs rest (N.succ si)
      else inside_hits t cs rest (N.succ si)
  end.

Lemma intersect_objects_candidates k t cs objs si n :
  candidates (kernel_of k (intersect_objects k t cs objs si n))
  = candidates (kernel_of k n) ++ inside_hits t cs objs si.
Proof.
  revert si n. induction objs as [|obj rest IH]; intros si n; simpl.
  - by rewrite app_nil_r.
  - destruct (intersect t obj _ _) as [sfi lnk].
    destruct (is_inside _); rewrite IH; [|done].
    rewrite kernel_of_set_kernel, candidates_push_back.
    destruct k; simpl; by rewrite <- app_assoc.
Qed.

Lemma intersect_objects_none k t cs objs si n :
  inside_hits t cs objs si = [] → intersect_objects k t cs objs si n = n.
Proof.
  revert si n. induction objs as [|obj rest IH]; intros si n H; simpl in *;
    [done|].
  destruct (intersect t obj _ _) as [sfi lnk].
  destruct (is_inside _); [discriminate|]. by apply IH.
Qed.

(** The kernel is empty, the track hits no object of the store inside and
    the vector has room for the objects: [initialize_kernel] changes
    nothing. *)
Definition at_rest_empty (t : track) (cs : constituents)
    (kernel : navigation_kernel) : Prop :=
  candidates kernel = [] ∧
  inside_hits t cs (objects cs) 0%N = [] ∧
  length (objects cs) ≤ capacity kernel.

(** The record under the cursor is what [intersect] gives for this track,
    it is inside, and the distance and the status are set from it. *)
Definition at_rest_cursor (t : track) (cs : constituents) (k : kernel_kind)
    (n : navigation_state) : Prop :=
  ∃ cur, deref (kernel_of k n) = Ok cur ∧
         up_to_date t cs cur ∧
         sf_status cur = e_inside ∧
         distance_to_next n = path cur ∧
         nav_status n = towards k.

Record settled (t : track) (vol : volume) (n : navigation_state) : Prop := {
  settled_index : volume_index n ≠ dindex_invalid;
  settled_volume : indexed_volume detector (volume_index n) = Ok vol;
  settled_vol_index : vol_index vol = volume_index n;
  settled_trust : trust_level n = e_full_trust;
  settled_kernel :
    at_rest_cursor t (store_of (active_kind n) vol) (active_kind n) n ∨
    (at_rest_empty t (store_of (active_kind n) vol)
       (kernel_of (active_kind n) n) ∧
     (active_kind n = portal_kind → nav_status n ≠ e_on_portal));
  settled_distance :
    scalar_lt (distance_to_next n) (on_surface_tolerance n) = false
}.

Lemma set_volume_index_same (n : navigation_state) :
  set_volume_index (volume_index n) n = n.
Proof. by destruct n. Qed.

Lemma set_kernel_same k (n : navigation_state) :
  set_kernel k (kernel_of k n) n = n.
Proof. by destruct k, n. Qed.

Lemma update_kernel_settled k n t cs :
  trust_level n = e_full_trust →
  at_rest_cursor t cs k n →
  scalar_lt (distance_to_next n) (on_surface_tolerance n) = false →
  update_kernel k n t cs = Ok (true, n).
Proof.
  intros Htrust (cur & Hcur & (s & sfi & lnk & Hs & Hi & Hc) & Hin & Hd & Hst)
    Htol.
  apply deref_Ok in Hcur as [Hfresh Hcur].
  destruct (is_exhausted_false_lt _ _ Hcur) as [Hex Hemp].
  unfold update_kernel. simpl. rewrite Hemp, Htrust, Hex. simpl.
  unfold deref. rewrite Hfresh, Hcur. simpl.
  unfold indexed_object. rewrite Hs. simpl. rewrite Hi, <- Hc.
  unfold is_inside. rewrite Hin. simpl.
  rewrite list_insert_id by done.
  rewrite Hd in Htol.
  assert (set_candidates k (candidates (kernel_of k n)) n = n) as ->.
  { destruct n as [[] [] ? ? ? ? ? ? ?]; by destruct k. }
  assert (path sfi = path cur) as Hp by (by rewrite Hc).
  simpl. rewrite ?Hp, Htol. do 2 f_equal.
  destruct n; simpl in *. by subst.
Qed.

Lemma initialize_kernel_idle k n t cs :
  at_rest_empty t cs (kernel_of k n) → initialize_kernel k n t cs = Ok n.
Proof.
  intros (Hc & Hh & Hcap). unfold initialize_kernel.
  destruct (Nat.eqb _ _); [done|].
  rewrite reserve_enough by done. rewrite set_kernel_same.
  rewrite intersect_objects_none by done.
  unfold sort_and_set, empty. by rewrite Hc.
Qed.

Lemma update_kernel_idle k n t cs :
  at_rest_empty t cs (kernel_of k n) → update_kernel k n t cs = Ok (true, n).
Proof.
  intros He. unfold update_kernel. cbn [update_kernel_fuel].
  assert (empty (kernel_of k n) = true) as ->
    by (destruct He as (Hc & _); unfold empty; by rewrite Hc).
  by rewrite initialize_kernel_idle.
Qed.

Lemma status_settled t vol n :
  settled t vol n → status n t = Ok (inspect n).
Proof.
  intros [Hidx Hvol Hvi Htrust Hk Htol].
  unfold status, retrieve_volume.
  apply N.eqb_neq in Hidx. rewrite Hidx. simpl. rewrite Hvol. simpl.
  rewrite Hvi, set_volume_index_same, Hidx, Htrust. simpl.
  unfold active_kind in *.
  destruct (is_exhausted (surface_kernel n)) eqn:Hex; simpl in *.
  - assert (update_kernel portal_kind n t (portals vol) = Ok (true, n) ∧
            nav_status n ≠ e_on_portal) as [-> Hst].
    { destruct Hk as [Hk | [Hk Hst]].
      - split; [by apply update_kernel_settled|].
        destruct Hk as (cur & _ & _ & _ & _ & ->). done.
      - split; [by apply update_kernel_idle | by apply Hst]. }
    simpl. unfold check_volume_switch. by rewrite bool_decide_eq_false_2.
  - assert (update_kernel surface_kind n t (surfaces vol) = Ok (true, n))
      as ->; [|done].
    destruct Hk as [Hk | [Hk _]];
      [by apply update_kernel_settled | by apply update_kernel_idle].
Qed.

Lemma settled_inspect t vol n : settled t vol n → settled t vol (inspect n).
Proof. intros [? ? ? ? ? ?]. by split. Qed.


(** *** What the first call leaves *)

Lemma at_index_app {A} (pre : list A) (x : A) (rest : list A) :
  at_index (pre ++ x :: rest) (N.of_nat (length pre)) = Some x.
Proof.
  induction pre as [|y pre IH]; [done|].
  cbn [app length at_index]. rewrite Nat2N.inj_succ.
  destruct (N.eqb_spec (N.succ (N.of_nat (length pre))) 0) as [He|_];
    [lia|].
  by rewrite N.pred_succ.
Qed.

Definition fresh_records (t : track) (cs : constituents)
    (kernel : navigation_kernel) : Prop :=
  Forall (λ c, up_to_date t cs c ∧ sf_status c = e_inside) (candidates kernel).

Lemma intersect_objects_fresh k t cs pre objs n :
  objects cs = pre ++ objs →
  fresh_records t cs (kernel_of k n) →
  fresh_records t cs
    (kernel_of k (intersect_objects k t cs objs (N.of_nat (length pre)) n)).
Proof.
  revert pre n. induction objs as [|obj rest IH]; intros pre n Hobjs Hfr;
    simpl; [done|].
  destruct (intersect t obj _ _) as [sfi lnk] eqn:Hi.
  assert (objects cs = (pre ++ [obj]) ++ rest) as Hobjs'
    by (by rewrite <- app_assoc).
  assert (N.succ (N.of_nat (length pre)) = N.of_nat (length (pre ++ [obj])))
    as -> by (rewrite length_app; simpl; lia).
  destruct (is_inside _) eqn:Hsfi; apply IH; try done.
  apply bool_decide_eq_true in Hsfi.
  unfold fresh_records in *.
  assert (up_to_date t cs
            (set_link lnk (set_index (N.of_nat (length pre)) sfi))) as Hup.
  { exists obj, sfi, lnk. simpl. repeat split; [|done].
    rewrite Hobjs. apply at_index_app. }
  rewrite kernel_of_set_kernel, candidates_push_back.
  destruct k; simpl in *; apply Forall_app; split; try done;
    by apply Forall_singleton.
Qed.

Lemma intersect_objects_grows k t cs objs si n :
  ∃ added,
    candidates (kernel_of k (intersect_objects k t cs objs si n))
      = candidates (kernel_of k n) ++ added ∧
    (added = [] → intersect_objects k t cs objs si n = n).
Proof.
  exists (inside_hits t cs objs si). split.
  - apply intersect_objects_candidates.
  - apply intersect_objects_none.
Qed.

Lemma fresh_records_deref t cs kernel hd :
  fresh_records t cs kernel → deref kernel = Ok hd →
  up_to_date t cs hd ∧ sf_status hd = e_inside.
Proof.
  intros Hfr [_ Hhd]%deref_Ok.
  unfold fresh_records in Hfr. rewrite Forall_lookup in Hfr.
  by apply (Hfr _ _ Hhd).
Qed.

(** [initialize_kernel] on a kernel whose records are what [intersect]
    gives for this track: either nothing is inside and only the capacity
    has changed, or the kernel holds such records, sorted, with the cursor
    at the head. *)
Lemma initialize_kernel_rests k n t cs n' :
  fresh_records t cs (kernel_of k n) →
  initialize_kernel k n t cs = Ok n' →
  (n' = set_kernel k (reserve (length (objects cs)) (kernel_of k n)) n ∧
   at_rest_empty t cs (kernel_of k n')) ∨
  (empty (kernel_of k n') = false ∧
   trust_level n' = e_full_trust ∧
   fresh_records t cs (kernel_of k n') ∧
   next (kernel_of k n') = 0 ∧
   at_rest_cursor t cs k n').
Proof using sort_perm sort_sorted.
  intros Hfr H. unfold initialize_kernel in H.
  destruct (Nat.eqb_spec (length (objects cs)) 0) as [Hz | Hnz].
  - injection H as <-. left.
    assert (objects cs = []) as Hobjs
      by (destruct (objects cs); [done | simpl in Hz; lia]).
    rewrite Hz. split.
    { unfold reserve. simpl. by rewrite set_kernel_same. }
    split; [|rewrite Hobjs; simpl; split; [done | lia]].
    unfold fresh_records in Hfr.
    destruct (candidates (kernel_of k n)) as [|c l]; [done|].
    apply Forall_cons in Hfr as [[(s & sfi & lnk & Hs & _) _] _].
    rewrite Hobjs in Hs. discriminate.
  - set (nr := set_kernel k (reserve (length (objects cs)) (kernel_of k n)) n)
      in *.
    assert (kernel_of k nr = reserve (length (objects cs)) (kernel_of k n))
      as Hnr by apply kernel_of_set_kernel.
    pose proof (intersect_objects_candidates k t cs (objects cs) 0%N nr)
      as Hadd.
    pose proof (intersect_objects_fresh k t cs [] (objects cs) nr eq_refl)
      as Hfr'.
    simpl in Hfr'.
    assert (fresh_records t cs (kernel_of k nr)) as Hfr0.
    { unfold fresh_records. by rewrite Hnr, candidates_reserve. }
    specialize (Hfr' Hfr0).
    destruct (empty (kernel_of k
                (intersect_objects k t cs (objects cs) 0%N nr))) eqn:He.
    + left.
      apply sort_and_set_Ok in H as [[_ ->] | (He' & _)]; [|congruence].
      apply empty_true_length in He. unfold kernel_end in He.
      apply nil_length_inv in He. rewrite He in Hadd.
      symmetry in Hadd. apply app_eq_nil in Hadd as [Hnil Hhits].
      rewrite intersect_objects_none by done.
      split; [done|]. rewrite Hnr.
      split; [by rewrite <- Hnr|].
      split; [done | apply capacity_reserve].
    + right.
      destruct (sort_and_set_sorted _ _ _ He H)
        as (_ & Hperm & Hnext & (hd & Hhd & Hd) & Hst & _ & Htrust).
      assert (fresh_records t cs (kernel_of k n')) as Hfr1
        by (unfold fresh_records in *; by rewrite Hperm).
      split.
      { apply deref_Ok in Hhd as [_ Hhd].
        by destruct (is_exhausted_false_lt _ _ Hhd). }
      split; [done|]. split; [done|]. split; [done|].
      destruct (fresh_records_deref _ _ _ _ Hfr1 Hhd) as [Hup Hin].
      exists hd. by repeat split.
Qed.

Lemma indexed_object_Ok cs si s :
  indexed_object cs si = Ok s → at_index (objects cs) si = Some s.
Proof.
  unfold indexed_object. destruct (at_index _ _); simpl; congruence.
Qed.

(** A call of [update_kernel] on a kernel with candidates that answers
    true at full trust, away from the object: the record under the cursor
    has just been intersected. *)
Lemma update_kernel_fuel_rests fuel k n t cs n' :
  empty (kernel_of k n) = false →
  update_kernel_fuel fuel k n t cs = Ok (true, n') →
  trust_level n' = e_full_trust →
  scalar_lt (distance_to_next n') (on_surface_tolerance n') = false →
  at_rest_cursor t cs k n'.
Proof.
  revert n. induction fuel as [|fuel IH]; intros n Hne H Htrust Htol;
    [discriminate|].
  simpl in H. rewrite Hne in H.
  destruct (trust_geb _ _ && _).
  { apply bind_Ok in H as (cur & Hcur & H).
    apply deref_Ok in Hcur as [Hfresh Hcur].
    pose proof (lookup_lt_Some _ _ _ Hcur) as Hlt.
    apply bind_Ok in H as (s & Hs & H). apply indexed_object_Ok in Hs.
    destruct (intersect t s _ _) as [sfi lnk] eqn:Hi.
    destruct (is_inside _) eqn:Hin.
    - apply bool_decide_eq_true in Hin. simpl in Hin.
      destruct (scalar_lt (path sfi) _) eqn:Hlt'; simpl in H.
      + exfalso. destruct k; simpl in H; injection H as <-; simpl in *;
          congruence.
      + injection H as <-.
        exists (set_link lnk (set_index (index cur) sfi)).
        split.
        { apply deref_Ok. destruct k; simpl; (split; [done|]);
            by apply list_lookup_insert_eq. }
        split; [by exists s, sfi, lnk|].
        by destruct k.
    - apply bind_Ok in H as ([found' n1] & Hrec & H).
      destruct found'; [|discriminate]. injection H as <-.
      apply IH in Hrec; [done | | done | done].
      unfold increment_next. rewrite kernel_of_set_kernel.
      unfold empty in *. by simpl. }
  destruct (bool_decide (trust_level n = e_fair_trust)); [|discriminate].
  apply bind_Ok in H as (l & _ & H).
  apply bind_Ok in H as (n1 & _ & H).
  destruct (bool_decide (trust_level n1 = e_high_trust)) eqn:Hh;
    [|discriminate].
  apply bool_decide_eq_true in Hh. injection H as <-. congruence.
Qed.

Lemma update_kernel_rests k n t cs n' :
  update_kernel k n t cs = Ok (true, n') →
  trust_level n' = e_full_trust →
  scalar_lt (distance_to_next n') (on_surface_tolerance n') = false →
  at_rest_cursor t cs k n' ∨
  (n' = set_kernel k (reserve (length (objects cs)) (kernel_of k n)) n ∧
   at_rest_empty t cs (kernel_of k n')).
Proof using sort_perm sort_sorted.
  intros H Htrust Htol.
  destruct (empty (kernel_of k n)) eqn:He.
  - unfold update_kernel in H. cbn [update_kernel_fuel] in H.
    rewrite He in H. apply bind_Ok in H as (n1 & H1 & H). injection H as <-.
    apply initialize_kernel_rests in H1 as [H1 | (_ & _ & _ & _ & H1)];
      [by right | by left |].
    apply empty_true_length in He. unfold kernel_end in He.
    apply nil_length_inv in He. unfold fresh_records. by rewrite He.
  - left. by eapply update_kernel_fuel_rests.
Qed.

Lemma at_rest_cursor_active t cs n :
  at_rest_cursor t cs surface_kind n → active_kind n = surface_kind.
Proof.
  intros (cur & [_ Hcur]%deref_Ok & _). unfold active_kind.
  destruct (is_exhausted_false_lt _ _ Hcur) as [Hex _].
  simpl in Hex. by rewrite Hex.
Qed.

Lemma is_exhausted_reserve m kernel :
  is_exhausted kernel = false → is_exhausted (reserve m kernel) = false.
Proof.
  unfold reserve. destruct (_ <? _); [|done]. intros _.
  unfold is_exhausted. done.
Qed.

Lemma check_volume_switch_full n n' :
  check_volume_switch n = Ok n' → trust_level n' = e_full_trust →
  n' = n ∧ nav_status n ≠ e_on_portal.
Proof.
  unfold check_volume_switch. intros H Htrust.
  destruct (bool_decide _) eqn:Hst.
  - apply bind_Ok in H as (cur & _ & H). injection H as <-. discriminate.
  - apply bool_decide_eq_false in Hst. by injection H as <-.
Qed.

(** The end of [status] when the surfaces are exhausted. *)
Lemma status_portals_settles t vol na n1 :
  volume_index na = vol_index vol →
  vol_index vol ≠ dindex_invalid →
  indexed_volume detector (vol_index vol) = Ok vol →
  is_exhausted (surface_kernel na) = true →
  ('(_, navigation) ← update_kernel portal_kind na t (portals vol);
   navigation ← check_volume_switch navigation;
   Ok (inspect navigation)) = Ok n1 →
  trust_level n1 = e_full_trust →
  scalar_lt (distance_to_next n1) (on_surface_tolerance n1) = false →
  settled t vol n1.
Proof using sort_perm sort_sorted.
  intros Hv Hvi Hiv Hex H Htrust Htol.
  apply bind_Ok in H as ([found nb] & Hb & H).
  apply bind_Ok in H as (nc & Hc & H). injection H as <-.
  apply check_volume_switch_full in Hc as [-> Hst]; [|done].
  apply settled_inspect.
  pose proof (update_kernel_frame _ _ _ _ _ _ Hb) as (Ho & Hvb & _).
  simpl in Ho.
  assert (active_kind nb = portal_kind) as Hact
    by (unfold active_kind; by rewrite Ho, Hex).
  destruct found.
  2:{ apply update_kernel_fuel_false in Hb as [Hb _].
      simpl in Htrust. congruence. }
  apply update_kernel_rests in Hb; [|done|done].
  split; rewrite ?Hact; try done; try congruence.
  destruct Hb as [Hb | [_ Hb]]; [by left | by right].
Qed.

Lemma first_status_settles n0 t vol n1 :
  retrieve_volume n0 t = Ok vol →
  vol_index vol ≠ dindex_invalid →
  indexed_volume detector (vol_index vol) = Ok vol →
  (trust_level n0 = e_no_trust →
   fresh_records t (surfaces vol) (surface_kernel n0) ∧
   fresh_records t (portals vol) (portal_kernel n0)) →
  status n0 t = Ok n1 →
  trust_level n1 = e_full_trust →
  scalar_lt (distance_to_next n1) (on_surface_tolerance n1) = false →
  settled t vol n1.
Proof using sort_perm sort_sorted.
  intros Hvol Hvi Hiv Hfresh H Htrust1 Htol.
  unfold status in H. rewrite Hvol in H.
  cbn [mbind result_bind] in H. cbn zeta in H.
  assert (surface_kernel (set_volume_index (vol_index vol) n0)
          = surface_kernel n0) as Hs0 by done.
  assert (portal_kernel (set_volume_index (vol_index vol) n0)
          = portal_kernel n0) as Hp0 by done.
  assert (trust_level (set_volume_index (vol_index vol) n0) = trust_level n0)
    as Ht0 by done.
  assert (volume_index (set_volume_index (vol_index vol) n0) = vol_index vol)
    as Hv0 by done.
  set (n := set_volume_index (vol_index vol) n0) in *. clearbody n.
  rewrite Hv0, (proj2 (N.eqb_neq _ _) Hvi) in H. simpl in H.
  destruct (bool_decide (trust_level n = e_no_trust)) eqn:Hnt.
  - apply bool_decide_eq_true in Hnt.
    destruct Hfresh as [Hfs Hfp]; [congruence|].
    rewrite <- Hs0 in Hfs. rewrite <- Hp0 in Hfp.
    apply bind_Ok in H as (na & Ha & H).
    pose proof (initialize_kernel_frame _ _ _ _ _ Ha) as (Hoa & Hva & _).
    simpl in Hoa.
    apply (initialize_kernel_rests surface_kind) in Ha
      as [[Hna Hrest] | (Hne & Htr & _ & _ & Hrest)]; [| |done].
    + assert (empty (surface_kernel na) = true) as Hemp.
      { destruct Hrest as (Hc & _). unfold empty. simpl in Hc. by rewrite Hc. }
      rewrite Hemp in H.
      apply bind_Ok in H as (nb & Hb & H).
      pose proof (initialize_kernel_frame _ _ _ _ _ Hb) as (Hob & Hvb & _).
      simpl in Hob.
      apply bind_Ok in H as (nc & Hc & H). injection H as <-.
      apply check_volume_switch_full in Hc as [-> Hst]; [|done].
      apply settled_inspect.
      apply (initialize_kernel_rests portal_kind) in Hb
        as [[Hnb Hrestb] | (Hneb & Htrb & _ & _ & Hrestb)];
        [| |by (simpl; rewrite Hoa)].
      * exfalso. simpl in Htrust1. rewrite Hnb in Htrust1. simpl in Htrust1.
        rewrite Hna in Htrust1. simpl in Htrust1. congruence.
      * split; try done; try congruence.
        unfold active_kind. rewrite Hob.
        destruct (is_exhausted (surface_kernel na)); simpl.
        -- by left.
        -- right. split; [|done]. by rewrite Hob.
    + simpl in Hne. rewrite Hne in H. injection H as <-.
      apply settled_inspect.
      pose proof (at_rest_cursor_active _ _ _ Hrest) as Hact.
      split; rewrite ?Hact; try done; try congruence. by left.
  - apply bind_Ok in H as ([found na] & Ha & H).
    destruct (is_exhausted (surface_kernel n)) eqn:Hex; simpl in Ha.
    + injection Ha as <- <-.
      by apply (status_portals_settles t vol n n1).
    + pose proof (update_kernel_frame _ _ _ _ _ _ Ha) as (_ & Hva & _).
      destruct found.
      * injection H as <-. apply settled_inspect.
        apply update_kernel_rests in Ha as [Ha | [Hna Ha]]; [| |done|done].
        -- pose proof (at_rest_cursor_active _ _ _ Ha) as Hact.
           split; rewrite ?Hact; try done; try congruence. by left.
        -- assert (active_kind na = surface_kind) as Hact.
           { unfold active_kind. rewrite Hna. simpl.
             by rewrite is_exhausted_reserve. }
           split; rewrite ?Hact; try done; try congruence. by right.
      * apply update_kernel_fuel_false in Ha as Hfalse.
        destruct Hfalse as [_ Hexa].
        apply (status_portals_settles t vol na n1); try done. congruence.
Qed.

(** C8 (as amended): two consecutive [status] calls with the track
    unchanged, the first of which ends at full trust with a distance to
    next that is not below the tolerance, give the same state up to the
    inspector, which the second call invokes once more.  The first call may
    start at any trust level; when it starts without trust, the records the
    kernels hold are to be what [intersect] gives for this track, as they are
    in cleared kernels.  The second call is not idle: [status] has no early
    return at full trust and intersects the candidate under the cursor
    again. *)
Theorem status_twice_same_state (n0 : navigation_state) (t : track)
    (vol : volume) (n1 : navigation_state) :
  retrieve_volume n0 t = Ok vol →
  vol_index vol ≠ dindex_invalid →
  indexed_volume detector (vol_index vol) = Ok vol →
  (trust_level n0 = e_no_trust →
   fresh_records t (surfaces vol) (surface_kernel n0) ∧
   fresh_records t (portals vol) (portal_kernel n0)) →
  status n0 t = Ok n1 →
  trust_level n1 = e_full_trust →
  scalar_lt (distance_to_next n1) (on_surface_tolerance n1) = false →
  status n1 t = Ok (inspect n1).
Proof using sort_perm sort_sorted.
  intros. apply (status_settled t vol).
  by apply (first_status_settles n0).
Qed.


(** * Further properties of the navigator *)

(** ** What initialize_kernel puts into a kernel *)

(** [c] is the record of an object of the store that the track hits
    inside: it carries the index of the object and its link. *)
Definition inside_hit (t : track) (cs : constituents) (c : intersection) : Prop :=
  ∃ si obj sfi lnk,
    at_index (objects cs) si = Some obj ∧
    intersect t obj (transforms cs) (masks cs) = (sfi, lnk) ∧
    sf_status sfi = e_inside ∧
    c = set_link lnk (set_index si sfi).

Lemma at_index_app_inv {A} (pre : list A) (rest : list A) (j : nat) (x : A) :
  at_index (pre ++ rest) (N.of_nat (length pre + j)) = Some x ↔
  at_index rest (N.of_nat j) = Some x.
Proof.
  induction pre as [|y pre IH]; [done|].
  cbn [app length at_index Nat.add]. rewrite Nat2N.inj_succ.
  destruct (N.eqb_spec (N.succ (N.of_nat (length pre + j))) 0) as [He|_];
    [lia|].
  by rewrite N.pred_succ.
Qed.

Lemma at_index_of_nat {A} (l : list A) (i : dindex) (x : A) :
  at_index l i = Some x → ∃ j, i = N.of_nat j ∧ j < length l.
Proof.
  revert i. induction l as [|y l IH]; intros i H; [done|]. simpl in H.
  destruct (N.eqb_spec i 0) as [Hi | Hne].
  - exists 0. split; [done | simpl; lia].
  - apply IH in H as (j & Hj & Hlt). exists (S j). split; [|simpl; lia].
    rewrite Nat2N.inj_succ, <- Hj. by rewrite N.succ_pred.
Qed.

Lemma inside_hits_spec t cs pre objs c :
  objects cs = pre ++ objs →
  c ∈ inside_hits t cs objs (N.of_nat (length pre)) ↔
  ∃ j obj sfi lnk,
    at_index objs (N.of_nat j) = Some obj ∧
    intersect t obj (transforms cs) (masks cs) = (sfi, lnk) ∧
    sf_status sfi = e_inside ∧
    c = set_link lnk (set_index (N.of_nat (length pre + j)) sfi).
Proof.
  revert pre. induction objs as [|obj rest IH]; intros pre Hobjs; simpl.
  { split; [by intros ?%elem_of_nil | by intros (j & o & ? & ? & ? & _)]. }
  assert (objects cs = (pre ++ [obj]) ++ rest) as Hobjs'
    by (by rewrite <- app_assoc).
  specialize (IH _ Hobjs'). rewrite length_app in IH. simpl in IH.
  assert (N.of_nat (length pre + 1) = N.succ (N.of_nat (length pre))) as Hs
    by lia.
  rewrite Hs in IH.
  destruct (intersect t obj _ _) as [sfi lnk] eqn:Hi.
  assert (c ∈ inside_hits t cs rest (N.succ (N.of_nat (length pre))) ↔
          ∃ j obj' sfi' lnk',
            at_index (obj :: rest) (N.of_nat (S j)) = Some obj' ∧
            intersect t obj' (transforms cs) (masks cs) = (sfi', lnk') ∧
            sf_status sfi' = e_inside ∧
            c = set_link lnk' (set_index (N.of_nat (length pre + S j)) sfi'))
    as Hrest.
  { rewrite IH. split; intros (j & o & s & l & Hat & Hint & Hin & ->);
      exists j, o, s, l; repeat split; try done.
    - cbn [at_index]. rewrite Nat2N.inj_succ.
      destruct (N.eqb_spec (N.succ (N.of_nat j)) 0); [lia|].
      by rewrite N.pred_succ.
    - do 2 f_equal. lia.
    - cbn [at_index] in Hat. rewrite Nat2N.inj_succ in Hat.
      destruct (N.eqb_spec (N.succ (N.of_nat j)) 0); [lia|].
      by rewrite N.pred_succ in Hat.
    - do 2 f_equal. lia. }
  assert (c = set_link lnk (set_index (N.of_nat (length pre)) sfi)
          ∧ sf_status sfi = e_inside ↔
          ∃ obj' sfi' lnk',
            at_index (obj :: rest) (N.of_nat 0) = Some obj' ∧
            intersect t obj' (transforms cs) (masks cs) = (sfi', lnk') ∧
            sf_status sfi' = e_inside ∧
            c = set_link lnk' (set_index (N.of_nat (length pre + 0)) sfi'))
    as Hhead.
  { split.
    - intros [-> Hin]. exists obj, sfi, lnk. repeat split; try done.
      by rewrite Nat.add_0_r.
    - intros (o & s & l & Hat & Hint & Hin & ->). simpl in Hat.
      injection Hat as <-. rewrite Hi in Hint. injection Hint as <- <-.
      by rewrite Nat.add_0_r. }
  unfold is_inside. simpl.
  destruct (bool_decide (sf_status sfi = e_inside)) eqn:Hsfi.
  - apply bool_decide_eq_true in Hsfi.
    rewrite elem_of_cons, Hrest. split.
    + intros [-> | (j & H)].
      * exists 0. by apply Hhead.
      * by exists (S j).
    + intros ([|j] & H).
      * left. by apply Hhead in H as [-> _].
      * right. by exists j.
  - apply bool_decide_eq_false in Hsfi.
    rewrite Hrest. split.
    + intros (j & H). by exists (S j).
    + intros ([|j] & H).
      * apply Hhead in H as [_ ?]. done.
      * by exists j.
Qed.

Lemma inside_hits_inside_hit t cs c :
  c ∈ inside_hits t cs (objects cs) 0%N ↔ inside_hit t cs c.
Proof.
  rewrite (inside_hits_spec t cs [] (objects cs) c eq_refl). simpl.
  unfold inside_hit. split.
  - intros (j & obj & sfi & lnk & H). by exists (N.of_nat j), obj, sfi, lnk.
  - intros (si & obj & sfi & lnk & Hat & Hint & Hin & ->).
    destruct (at_index_of_nat _ _ _ Hat) as (j & -> & _).
    by exists j, obj, sfi, lnk.
Qed.


(** The record the loop of [initialize_kernel] makes of the object [obj]
    at the index [si]. *)
Definition object_record (t : track) (cs : constituents) (si : nat)
    (obj : object) : intersection :=
  let '(sfi, lnk) := intersect t obj (transforms cs) (masks cs) in
  set_link lnk (set_index (N.of_nat si) sfi).

Lemma inside_hits_filter t cs objs j :
  inside_hits t cs objs (N.of_nat j)
  = filter (λ c, sf_status c = e_inside)
      (imap (λ i, object_record t cs (j + i)) objs).
Proof.
  revert j. induction objs as [|obj rest IH]; intros j; [done|].
  cbn [inside_hits imap]. rewrite filter_cons, Nat.add_0_r.
  destruct (intersect t obj _ _) as [sfi lnk] eqn:Hi.
  assert (object_record t cs j obj = set_link lnk (set_index (N.of_nat j) sfi))
    as -> by (unfold object_record; by rewrite Hi).
  assert (N.succ (N.of_nat j) = N.of_nat (S j)) as -> by lia.
  rewrite IH.
  assert (imap (λ i, object_record t cs (S j + i)) rest
          = imap ((λ i, object_record t cs (j + i)) ∘ S) rest) as ->.
  { apply imap_ext. intros i x _. simpl. f_equal. lia. }
  unfold is_inside. simpl.
  destruct (decide (sf_status sfi = e_inside)) as [Hin | Hout].
  - by rewrite bool_decide_eq_true_2.
  - by rewrite bool_decide_eq_false_2.
Qed.

Lemma initialize_kernel_reserved_if_empty k n t cs n' :
  initialize_kernel k n t cs = Ok n' →
  empty (kernel_of k n') = true →
  n' = set_kernel k (reserve (length (objects cs)) (kernel_of k n)) n.
Proof.
  unfold initialize_kernel. intros H Hemp.
  destruct (Nat.eqb_spec (length (objects cs)) 0) as [Hz | Hnz].
  { injection H as <-. rewrite Hz. unfold reserve. simpl.
    by rewrite set_kernel_same. }
  apply sort_and_set_Ok in H as [[_ ->] | (_ & hd & rest & _ & ->)].
  - apply intersect_objects_none.
    apply empty_true_length in Hemp. unfold kernel_end in Hemp.
    rewrite intersect_objects_candidates, length_app in Hemp.
    apply nil_length_inv. lia.
  - by destruct k.
Qed.

(** X1: [initialize_kernel] adds to the records the kernel already holds
    exactly one record for every object of the store that the track hits
    inside, with the index and the link of the object, and nothing else: a
    kernel that is not cleared first keeps its old records.  When the
    kernel is empty afterwards, nothing but [reserve] has touched the
    state: the capacity is that of the store at least, and the cursor is
    stale if the vector had to move.  Otherwise, for a store with objects,
    the records are sorted by ascending path and the cursor is at the
    head. *)
Theorem initialize_kernel_records (k : kernel_kind) (n : navigation_state)
    (t : track) (cs : constituents) (n' : navigation_state) :
  initialize_kernel k n t cs = Ok n' →
  candidates (kernel_of k n') ≡ₚ
    candidates (kernel_of k n) ++
    filter (λ c, sf_status c = e_inside)
      (imap (object_record t cs) (objects cs)) ∧
  (empty (kernel_of k n') = true →
   n' = set_kernel k (reserve (length (objects cs)) (kernel_of k n)) n) ∧
  (objects cs ≠ [] → empty (kernel_of k n') = false →
   Sorted path_le (candidates (kernel_of k n')) ∧
   next (kernel_of k n') = 0 ∧
   next_stale (kernel_of k n') = false).
Proof using sort_perm sort_sorted.
  intros H. split; [|split].
  - unfold initialize_kernel in H.
    destruct (Nat.eqb_spec (length (objects cs)) 0) as [Hz | Hnz].
    + injection H as <-.
      destruct (objects cs); [by rewrite app_nil_r | simpl in Hz; lia].
    + assert (inside_hits t cs (objects cs) 0%N
              = filter (λ c, sf_status c = e_inside)
                  (imap (object_record t cs) (objects cs))) as Hf
        by apply (inside_hits_filter t cs (objects cs) 0).
      rewrite <- Hf.
      rewrite <- (candidates_reserved k (length (objects cs)) n),
        <- intersect_objects_candidates.
      apply sort_and_set_Ok in H as [[_ ->] | (_ & hd & rest & Hsort & ->)];
        [done|].
      pose proof (sort_perm (candidates (kernel_of k
        (intersect_objects k t cs (objects cs) 0%N
           (set_kernel k (reserve (length (objects cs)) (kernel_of k n)) n)))))
        as Hp.
      rewrite Hsort in Hp. rewrite <- Hp. by destruct k.
  - by apply (initialize_kernel_reserved_if_empty k n t cs n').
  - intros Hobj Hne. unfold initialize_kernel in H.
    destruct (Nat.eqb _ _) eqn:Hn.
    { apply Nat.eqb_eq in Hn. destruct (objects cs); [done | simpl in Hn; lia]. }
    pose proof H as H'.
    apply sort_and_set_Ok in H' as [[He ->] | (He & hd & rest & _ & Heq)];
      [congruence|].
    destruct (sort_and_set_sorted _ _ _ He H) as (? & _ & ? & _).
    split; [done|]. split; [done|]. rewrite Heq. by destruct k.
Qed.

(** ** Accesses that stay in range *)

(** Every record of the kernel refers to an object of the store, and the
    cursor of a kernel with candidates is valid. *)
Definition indexed_in (cs : constituents) (kernel : navigation_kernel) : Prop :=
  Forall (λ c, is_Some (at_index (objects cs) (index c))) (candidates kernel).

Definition fits (cs : constituents) (kernel : navigation_kernel) : Prop :=
  cursor_sound kernel ∧ indexed_in cs kernel.

Lemma fits_clear cs kernel : fits cs (clear kernel).
Proof. split; [by left | constructor]. Qed.

Lemma inside_hits_indexed t cs :
  Forall (λ c, is_Some (at_index (objects cs) (index c)))
    (inside_hits t cs (objects cs) 0%N).
Proof.
  apply Forall_forall. intros c Hc.
  apply inside_hits_inside_hit in Hc as (si & obj & sfi & lnk & Hat & _ & _ & ->).
  simpl. by rewrite Hat.
Qed.

Lemma initialize_kernel_fits k n t cs :
  fits cs (kernel_of k n) →
  ∃ n', initialize_kernel k n t cs = Ok n' ∧ fits cs (kernel_of k n').
Proof using sort_perm.
  intros [Hr Hix]. unfold initialize_kernel.
  destruct (Nat.eqb _ _); [by exists n|].
  set (nr := set_kernel k (reserve (length (objects cs)) (kernel_of k n)) n).
  destruct (sort_and_set_total k (intersect_objects k t cs (objects cs) 0%N nr))
    as (n' & Hn').
  exists n'. split; [done|].
  assert (indexed_in cs (kernel_of k (intersect_objects k t cs (objects cs) 0%N nr)))
    as Hix1.
  { unfold indexed_in. rewrite intersect_objects_candidates.
    apply Forall_app. split; [|apply inside_hits_indexed].
    unfold nr. by rewrite candidates_reserved. }
  apply sort_and_set_Ok in Hn' as [[He ->] | (_ & hd & rest & Hsort & ->)].
  - split; [by left | done].
  - pose proof (sort_perm (candidates (kernel_of k
                  (intersect_objects k t cs (objects cs) 0%N nr)))) as Hp.
    rewrite Hsort in Hp. unfold indexed_in in Hix1. rewrite <- Hp in Hix1.
    split; [right; unfold cursor_valid; kernel_arith k | by destruct k].
Qed.

Lemma reintersect_all_total t cs l :
  Forall (λ c, is_Some (at_index (objects cs) (index c))) l →
  ∃ l', reintersect_all t cs l = Ok l' ∧ index <$> l' = index <$> l.
Proof.
  induction 1 as [|c rest [s Hs] _ (rest' & Hrest & Hidx)]; simpl.
  - by exists [].
  - unfold indexed_object. rewrite Hs. simpl.
    destruct (intersect t s _ _) as [sfi lnk]. rewrite Hrest. simpl.
    eexists. split; [done|]. rewrite !fmap_cons. simpl. by f_equal.
Qed.

Lemma indexed_fmap cs (l l' : list intersection) :
  index <$> l' = index <$> l →
  Forall (λ c, is_Some (at_index (objects cs) (index c))) l →
  Forall (λ c, is_Some (at_index (objects cs) (index c))) l'.
Proof.
  revert l. induction l' as [|c' l' IH]; intros l Hidx Hl; [constructor|].
  destruct l as [|c l]; [discriminate|].
  rewrite !fmap_cons in Hidx. injection Hidx as Hc Hidx.
  inversion Hl as [|? ? Hc0 Hl0]; subst.
  constructor; [by rewrite Hc | by apply (IH l)].
Qed.

Lemma exhaust_fits cs k n :
  indexed_in cs (kernel_of k n) → fits cs (kernel_of k (exhaust k n)).
Proof.
  intros H. split; [|by destruct k].
  right. unfold cursor_valid. kernel_arith k.
Qed.

Lemma update_kernel_fuel_fits fuel k n t cs :
  kernel_end (kernel_of k n) - next (kernel_of k n) < fuel →
  fits cs (kernel_of k n) →
  ∃ found n',
    update_kernel_fuel fuel k n t cs = Ok (found, n') ∧
    fits cs (kernel_of k n').
Proof using sort_perm.
  revert n. induction fuel as [|fuel IH]; intros n Hfuel [Hr Hix]; [lia|].
  simpl. destruct (empty (kernel_of k n)) eqn:Hempty.
  { destruct (initialize_kernel_fits k n t cs) as (n' & -> & Hfit); [done|].
    by exists true, n'. }
  destruct (trust_geb _ _ && negb (is_exhausted (kernel_of k n))) eqn:Hhigh.
  { apply andb_true_iff in Hhigh as [_ Hex]. apply negb_true_iff in Hex.
    destruct Hr as [Hr | [Hfresh Hr]]; [congruence|].
    unfold is_exhausted in Hex. rewrite Hfresh in Hex. simpl in Hex.
    apply Nat.eqb_neq in Hex.
    assert (next (kernel_of k n) < length (candidates (kernel_of k n))) as Hlt
      by (unfold kernel_end in *; lia).
    destruct (lookup_lt_is_Some_2 _ _ Hlt) as [cur Hcur].
    unfold deref. rewrite Hfresh, Hcur. simpl.
    unfold indexed_in in Hix.
    destruct (proj1 (Forall_lookup _ _) Hix _ _ Hcur) as [s Hs].
    unfold indexed_object. rewrite Hs. simpl.
    destruct (intersect t s _ _) as [sfi lnk].
    assert (Forall (λ c, is_Some (at_index (objects cs) (index c)))
              (<[next (kernel_of k n) := set_link lnk (set_index (index cur) sfi)]>
                 (candidates (kernel_of k n)))) as Hix'.
    { apply Forall_insert; [done|]. simpl. by rewrite Hs. }
    destruct (is_inside _).
    - destruct (scalar_lt _ _); simpl; do 2 eexists; (split; [reflexivity|]);
        (split; [right; unfold cursor_valid; kernel_arith k | by destruct k]).
    - destruct (IH (increment_next k n))
        as (found' & n1 & -> & [Hr1 Hix1]).
      + kernel_arith k.
      + split; [right; unfold cursor_valid; kernel_arith k | by destruct k].
      + simpl. destruct found'; do 2 eexists; (split; [reflexivity|]);
          [done | by apply exhaust_fits]. }
  destruct (bool_decide _).
  { destruct (reintersect_all_total t cs _ Hix) as (l & -> & Hidx). simpl.
    destruct (sort_and_set_total k (set_candidates k l n)) as (n1 & Hn1).
    rewrite Hn1. simpl.
    assert (indexed_in cs (kernel_of k n1)) as Hix1.
    { assert (indexed_in cs (kernel_of k (set_candidates k l n))) as Hl.
      { unfold indexed_in, set_candidates. rewrite kernel_of_set_kernel.
        simpl. by apply (indexed_fmap cs _ _ Hidx). }
      apply sort_and_set_Ok in Hn1 as [[_ ->] | (_ & hd & rest & Hsort & ->)];
        [done|].
      pose proof (sort_perm (candidates (kernel_of k (set_candidates k l n))))
        as Hp.
      rewrite Hsort in Hp. unfold indexed_in in Hl. rewrite <- Hp in Hl.
      by destruct k. }
    destruct (bool_decide _); do 2 eexists; (split; [reflexivity|]).
    - split; [|done].
      apply sort_and_set_Ok in Hn1 as [[He ->] | (_ & hd & rest & Hsort & ->)].
      + by left.
      + right. unfold cursor_valid. kernel_arith k.
    - by apply exhaust_fits. }
  do 2 eexists. split; [reflexivity|]. by apply exhaust_fits.
Qed.

Lemma update_kernel_fits k n t cs :
  fits cs (kernel_of k n) →
  ∃ found n',
    update_kernel k n t cs = Ok (found, n') ∧ fits cs (kernel_of k n').
Proof using sort_perm. apply update_kernel_fuel_fits. lia. Qed.







(** X3: [target] performs no access out of range or through a stale cursor
    when the volume is found, the records of both kernels refer to objects
    of that volume and the cursor of a kernel with candidates is valid,
    whatever the status; both kernels are in that condition again
    afterwards. *)
Theorem target_in_range (n : navigation_state) (t : track) (vol : volume) :
  retrieve_volume n t = Ok vol →
  fits (surfaces vol) (surface_kernel n) →
  fits (portals vol) (portal_kernel n) →
  ∃ n',
    target n t = Ok n' ∧
    fits (surfaces vol) (surface_kernel n') ∧
    fits (portals vol) (portal_kernel n').
Proof using sort_perm.
  intros Hvol Hs Hp. unfold target.
  destruct (bool_decide (_ = e_full_trust)); [by exists n|].
  rewrite Hvol. cbn [mbind result_bind].
  set (n0 := set_volume_index (vol_index vol) n).
  change (fits (surfaces vol) (surface_kernel n0)) in Hs.
  change (fits (portals vol) (portal_kernel n0)) in Hp.
  clearbody n0.
  destruct (bool_decide _); [|by exists (inspect n0)].
  destruct (negb _).
  - destruct (is_exhausted _).
    + destruct (update_kernel_fits portal_kind
                  (set_trust_level e_no_trust
                     (set_surface_kernel (clear (surface_kernel n0)) n0))
                  t (portals vol) Hp) as (found & n1 & Hn1 & Hp1).
      rewrite Hn1. simpl.
      pose proof (update_kernel_frame _ _ _ _ _ _ Hn1) as (Hs1 & _).
      simpl in Hs1. exists (inspect n1).
      split; [done|]. split; [|done]. simpl. rewrite Hs1. apply fits_clear.
    + destruct (update_kernel_fits surface_kind n0 t (surfaces vol) Hs)
        as (found & n1 & Hn1 & Hs1).
      rewrite Hn1. simpl.
      pose proof (update_kernel_frame _ _ _ _ _ _ Hn1) as (Hp1 & _).
      simpl in Hp1.
      destruct found; [exists (inspect n1); simpl; by rewrite Hp1|].
      destruct (update_kernel_fits portal_kind n1 t (portals vol))
        as (found2 & n2 & Hn2 & Hp2); [simpl; by rewrite Hp1|].
      rewrite Hn2. simpl.
      pose proof (update_kernel_frame _ _ _ _ _ _ Hn2) as (Hs2 & _).
      simpl in Hs2. exists (inspect n2). simpl. by rewrite Hs2.
  - destruct (update_kernel_fits portal_kind n0 t (portals vol) Hp)
      as (found & n1 & Hn1 & Hp1).
    rewrite Hn1. simpl.
    pose proof (update_kernel_frame _ _ _ _ _ _ Hn1) as (Hs1 & _).
    simpl in Hs1. exists (inspect n1). simpl. by rewrite Hs1.
Qed.


(** ** The steps of a call

    Both calls look up the volume, write its index into the state, run a
    sequence of kernel operations and show the result to the inspector. *)

Inductive navigation_step (t : track) (vol : volume) (n : navigation_state)
  : navigation_state → Prop :=
| step_initialize k n' :
    initialize_kernel k n t (store_of k vol) = Ok n' →
    navigation_step t vol n n'
| step_update k found n' :
    update_kernel k n t (store_of k vol) = Ok (found, n') →
    navigation_step t vol n n'
| step_switch n' :
    check_volume_switch n = Ok n' →
    navigation_step t vol n n'
| step_clear_surfaces :
    navigation_step t vol n
      (set_trust_level e_no_trust
         (set_surface_kernel (clear (surface_kernel n)) n)).

Definition navigation_steps (t : track) (vol : volume)
  : navigation_state → navigation_state → Prop :=
  rtc (navigation_step t vol).

Lemma status_steps n t n' :
  status n t = Ok n' →
  ∃ vol m,
    retrieve_volume n t = Ok vol ∧
    navigation_steps t vol (set_volume_index (vol_index vol) n) m ∧
    n' = inspect m.
Proof.
  unfold status, navigation_steps. intros H.
  apply bind_Ok in H as (vol & Hvol & H). exists vol.
  cbn zeta in H.
  set (n0 := set_volume_index (vol_index vol) n) in *. clearbody n0.
  destruct (_ || _).
  - apply bind_Ok in H as (n1 & H1 & H).
    assert (navigation_step t vol n0 n1) as S1
      by (by apply (step_initialize t vol n0 surface_kind)).
    destruct (empty _).
    + apply bind_Ok in H as (n2 & H2 & H).
      apply bind_Ok in H as (n3 & H3 & H). injection H as <-.
      exists n3. repeat split; [done|].
      eapply rtc_l; [exact S1|]. eapply rtc_l.
      { by apply (step_initialize t vol n1 portal_kind). }
      apply rtc_once. by apply step_switch.
    + injection H as <-. exists n1. repeat split; [done|]. by apply rtc_once.
  - apply bind_Ok in H as ([found n1] & H1 & H).
    assert (navigation_steps t vol n0 n1) as S1.
    { destruct (negb _).
      - apply rtc_once. by apply (step_update t vol n0 surface_kind found).
      - injection H1 as <- <-. apply rtc_refl. }
    destruct found.
    + injection H as <-. by exists n1.
    + apply bind_Ok in H as ([found2 n2] & H2 & H).
      apply bind_Ok in H as (n3 & H3 & H). injection H as <-.
      exists n3. repeat split; [done|].
      etrans; [exact S1|]. eapply rtc_l.
      { by apply (step_update t vol n1 portal_kind found2). }
      apply rtc_once. by apply step_switch.
Qed.

Lemma target_steps n t n' :
  trust_level n ≠ e_full_trust →
  target n t = Ok n' →
  ∃ vol m,
    retrieve_volume n t = Ok vol ∧
    navigation_steps t vol (set_volume_index (vol_index vol) n) m ∧
    n' = inspect m.
Proof.
  unfold target, navigation_steps. intros Hnf H.
  rewrite bool_decide_eq_false_2 in H by done.
  apply bind_Ok in H as (vol & Hvol & H). exists vol.
  cbn zeta in H.
  set (n0 := set_volume_index (vol_index vol) n) in *. clearbody n0.
  destruct (bool_decide _).
  2:{ injection H as <-. exists n0. repeat split; [done|]. apply rtc_refl. }
  destruct (negb _).
  - destruct (is_exhausted _).
    + apply bind_Ok in H as ([found n1] & H1 & H). injection H as <-.
      exists n1. repeat split; [done|].
      eapply rtc_l; [apply step_clear_surfaces|].
      apply rtc_once. by eapply (step_update _ _ _ portal_kind).
    + apply bind_Ok in H as ([found n1] & H1 & H).
      assert (navigation_step t vol n0 n1) as S1
        by (by apply (step_update t vol n0 surface_kind found)).
      destruct found.
      * injection H as <-. exists n1. repeat split; [done|]. by apply rtc_once.
      * apply bind_Ok in H as ([found2 n2] & H2 & H). injection H as <-.
        exists n2. repeat split; [done|].
        eapply rtc_l; [exact S1|].
        apply rtc_once. by apply (step_update t vol n1 portal_kind found2).
  - apply bind_Ok in H as ([found n1] & H1 & H). injection H as <-.
    exists n1. repeat split; [done|].
    apply rtc_once. by apply (step_update t vol n0 portal_kind found).
Qed.

(** A property that every step keeps is kept by the sequence. *)
Lemma navigation_steps_keep (P : navigation_state → Prop) t vol n m :
  (∀ a b, navigation_step t vol a b → P a → P b) →
  navigation_steps t vol n m → P n → P m.
Proof. intros Hstep Hsteps. induction Hsteps; eauto. Qed.


(** ** The inspector and the tolerance *)

Lemma check_volume_switch_frame n n' :
  check_volume_switch n = Ok n' →
  inspector n' = inspector n ∧
  on_surface_tolerance n' = on_surface_tolerance n ∧
  distance_to_next n' = distance_to_next n ∧
  nav_status n' = nav_status n.
Proof.
  unfold check_volume_switch. intros H. destruct (bool_decide _).
  - apply bind_Ok in H as (cur & _ & H). by injection H as <-.
  - by injection H as <-.
Qed.

Lemma navigation_step_frame t vol a b :
  navigation_step t vol a b →
  inspector b = inspector a ∧
  on_surface_tolerance b = on_surface_tolerance a.
Proof.
  intros [k n' H | k found n' H | n' H | ].
  - by apply initialize_kernel_frame in H as (_ & _ & ? & ?).
  - by apply update_kernel_frame in H as (_ & _ & ? & ?).
  - by apply check_volume_switch_frame in H as (? & ? & _).
  - done.
Qed.

(** X4: a [status] call, and a [target] call at a trust level other than
    [e_full_trust], calls the inspector exactly once, as its last action
    and on the state it returns; nothing else in the call touches the
    inspector or the on-surface tolerance. *)
Theorem call_inspects_once_at_the_end (n : navigation_state) (t : track)
    (n' : navigation_state) :
  status n t = Ok n' ∨ (trust_level n ≠ e_full_trust ∧ target n t = Ok n') →
  ∃ m,
    n' = inspect m ∧
    inspector m = inspector n ∧
    on_surface_tolerance n' = on_surface_tolerance n.
Proof.
  intros H.
  assert (∃ vol m,
            navigation_steps t vol (set_volume_index (vol_index vol) n) m ∧
            n' = inspect m) as (vol & m & Hsteps & ->).
  { destruct H as [H | [Hnf H]].
    - apply status_steps in H as (vol & m & _ & ? & ?). by exists vol, m.
    - apply target_steps in H as (vol & m & _ & ? & ?); [|done].
      by exists vol, m. }
  exists m. split; [done|].
  apply (navigation_steps_keep
           (λ m, inspector m = inspector n ∧
                 on_surface_tolerance m = on_surface_tolerance n)
           t vol (set_volume_index (vol_index vol) n) m);
    [|exact Hsteps|done].
  intros a b Hab [Hi Ht].
  apply navigation_step_frame in Hab as [-> ->]. done.
Qed.

(** ** Statuses and trust levels the navigator assigns *)

Lemma update_kernel_fuel_not_fair fuel k n t cs found n' :
  trust_level n ≠ e_fair_trust →
  update_kernel_fuel fuel k n t cs = Ok (found, n') →
  trust_level n' ≠ e_fair_trust.
Proof.
  revert n found n'.
  induction fuel as [|fuel IH]; intros n found n' Hnf H; [discriminate|].
  simpl in H. destruct (empty _).
  { apply bind_Ok in H as (n1 & H1 & H). injection H as <- <-.
    by eapply initialize_kernel_not_fair. }
  destruct (trust_geb _ _ && _).
  { apply bind_Ok in H as (cur & _ & H).
    apply bind_Ok in H as (s & _ & H).
    destruct (intersect t s _ _) as [sfi lnk].
    destruct (is_inside _).
    - destruct (scalar_lt _ _); simpl in H; injection H as <- <-;
        by destruct k.
    - apply bind_Ok in H as ([found' n1] & Hrec & H).
      apply IH in Hrec; [| by destruct k].
      destruct found'; injection H as <- <-; [done | by destruct k]. }
  rewrite bool_decide_eq_false_2 in H by done.
  injection H as <- <-. by destruct k.
Qed.

Lemma navigation_step_not_fair t vol a b :
  navigation_step t vol a b →
  trust_level a ≠ e_fair_trust → trust_level b ≠ e_fair_trust.
Proof.
  intros [k n' H | k found n' H | n' H | ] Hnf.
  - by eapply initialize_kernel_not_fair.
  - by eapply update_kernel_fuel_not_fair.
  - unfold check_volume_switch in H. destruct (bool_decide _).
    + apply bind_Ok in H as (cur & _ & H). by injection H as <-.
    + by injection H as <-.
  - done.
Qed.

(** X5: the statuses the navigator assigns are the four towards and on
    statuses, and the trust levels it assigns are no trust, high trust and
    full trust: after a [status] or [target] call a status [e_unknown],
    [e_on_target] or [e_abort] is the status on entry, and a trust level
    [e_fair_trust] is the trust level on entry. *)
Theorem navigator_assignments (n : navigation_state) (t : track)
    (n' : navigation_state) :
  status n t = Ok n' ∨ target n t = Ok n' →
  (nav_status n' = nav_status n ∨
   nav_status n' = e_towards_surface ∨ nav_status n' = e_on_surface ∨
   nav_status n' = e_towards_portal ∨ nav_status n' = e_on_portal) ∧
  (trust_level n' = e_fair_trust → trust_level n = e_fair_trust).
Proof.
  intros H. split.
  - destruct H as [H | H];
      [apply status_kept_or_navigating in H
      |apply target_kept_or_navigating in H]; exact H.
  - intros Hfair.
    destruct (decide (trust_level n = e_fair_trust)) as [|Hnf]; [done|].
    exfalso.
    assert (∃ vol m,
              navigation_steps t vol (set_volume_index (vol_index vol) n) m ∧
              n' = inspect m) as (vol & m & Hsteps & ->).
    { destruct H as [H | H].
      - apply status_steps in H as (vol & m & _ & ? & ?). by exists vol, m.
      - apply target_steps in H as (vol & m & _ & ? & ?);
          [by exists vol, m|].
        intros Hfull. unfold target in H. rewrite Hfull in H. simpl in H.
        injection H as <-. congruence. }
    revert Hfair. simpl.
    apply (navigation_steps_keep (λ m, trust_level m ≠ e_fair_trust)
             t vol (set_volume_index (vol_index vol) n) m);
      [|exact Hsteps|done].
    intros a b. apply navigation_step_not_fair.
Qed.

(** ** A reached object is within the tolerance *)

Definition on_object_within_tolerance (n : navigation_state) : Prop :=
  nav_status n = e_on_surface ∨ nav_status n = e_on_portal →
  scalar_lt (distance_to_next n) (on_surface_tolerance n) = true.

Lemma towards_not_on k : towards k ≠ e_on_surface ∧ towards k ≠ e_on_portal.
Proof. by destruct k. Qed.

Lemma sort_and_set_within_tolerance k n n' :
  sort_and_set k n = Ok n' →
  on_object_within_tolerance n → on_object_within_tolerance n'.
Proof.
  intros [[_ ->] | (_ & hd & rest & _ & ->)]%sort_and_set_Ok Hn; [done|].
  intros [H | H]; simpl in H; by destruct k.
Qed.

Lemma intersect_objects_within_tolerance k t cs objs si n :
  on_object_within_tolerance n →
  on_object_within_tolerance (intersect_objects k t cs objs si n).
Proof.
  revert si n. induction objs as [|obj rest IH]; intros si n Hn; simpl;
    [done|].
  destruct (intersect t obj _ _) as [sfi lnk].
  destruct (is_inside _); apply IH; [|done].
  intros [H | H]; destruct k; simpl in H; discriminate.
Qed.

Lemma update_kernel_fuel_within_tolerance fuel k n t cs found n' :
  update_kernel_fuel fuel k n t cs = Ok (found, n') →
  on_object_within_tolerance n → on_object_within_tolerance n'.
Proof.
  revert n found n'.
  induction fuel as [|fuel IH]; intros n found n' H Hn; [discriminate|].
  simpl in H. destruct (empty _).
  { apply bind_Ok in H as (n1 & H1 & H). injection H as <- <-.
    unfold initialize_kernel in H1. destruct (Nat.eqb _ _).
    - by injection H1 as <-.
    - eapply sort_and_set_within_tolerance; [exact H1|].
      apply intersect_objects_within_tolerance. by destruct k. }
  destruct (trust_geb _ _ && _).
  { apply bind_Ok in H as (cur & _ & H).
    apply bind_Ok in H as (s & _ & H).
    destruct (intersect t s _ _) as [sfi lnk].
    destruct (is_inside _).
    - destruct (scalar_lt _ _) eqn:Htol; simpl in H.
      + destruct k; simpl in H; injection H as <- <-; intros _;
          simpl in *; exact Htol.
      + injection H as <- <-. intros [H | H]; destruct k; simpl in H;
          discriminate.
    - apply bind_Ok in H as ([found' n1] & Hrec & H).
      apply IH in Hrec.
      2:{ intros Hon. by destruct k; apply Hn. }
      destruct found'; injection H as <- <-; [done|].
      intros Hon. by destruct k; apply Hrec. }
  destruct (bool_decide _).
  { apply bind_Ok in H as (l & _ & H).
    apply bind_Ok in H as (n1 & Hs & H).
    apply sort_and_set_within_tolerance in Hs.
    2:{ intros Hon. by destruct k; apply Hn. }
    destruct (bool_decide _); injection H as <- <-; [done|].
    intros Hon. by destruct k; apply Hs. }
  injection H as <- <-. intros Hon. by destruct k; apply Hn.
Qed.

Lemma navigation_step_within_tolerance t vol a b :
  navigation_step t vol a b →
  on_object_within_tolerance a → on_object_within_tolerance b.
Proof.
  intros [k n' H | k found n' H | n' H | ] Ha.
  - unfold initialize_kernel in H. destruct (Nat.eqb _ _).
    + by injection H as <-.
    + eapply sort_and_set_within_tolerance; [exact H|].
      apply intersect_objects_within_tolerance. by destruct k.
  - by eapply update_kernel_fuel_within_tolerance.
  - apply check_volume_switch_frame in H as (_ & Ht & Hd & Hs).
    unfold on_object_within_tolerance. by rewrite Ht, Hd, Hs.
  - exact Ha.
Qed.

(** X6: a status [e_on_surface] or [e_on_portal] goes with a distance to
    next below the on-surface tolerance: [status] and [target] keep this
    property of the state. *)
Theorem on_object_means_within_tolerance (n : navigation_state) (t : track)
    (n' : navigation_state) :
  on_object_within_tolerance n →
  status n t = Ok n' ∨ target n t = Ok n' →
  on_object_within_tolerance n'.
Proof.
  intros Hn H.
  destruct (decide (trust_level n = e_full_trust)) as [Hfull | Hnf].
  - destruct H as [H | H].
    + apply status_steps in H as (vol & m & _ & Hsteps & ->).
      apply (navigation_steps_keep on_object_within_tolerance t vol
               (set_volume_index (vol_index vol) n) m
               (navigation_step_within_tolerance t vol) Hsteps Hn).
    + unfold target in H. rewrite Hfull in H. simpl in H. by injection H as <-.
  - assert (∃ vol m,
              navigation_steps t vol (set_volume_index (vol_index vol) n) m ∧
              n' = inspect m) as (vol & m & Hsteps & ->).
    { destruct H as [H | H].
      - apply status_steps in H as (vol & m & _ & ? & ?). by exists vol, m.
      - apply target_steps in H as (vol & m & _ & ? & ?); [|done].
        by exists vol, m. }
    apply (navigation_steps_keep on_object_within_tolerance t vol
             (set_volume_index (vol_index vol) n) m
             (navigation_step_within_tolerance t vol) Hsteps Hn).
Qed.


(** ** The update under fair trust *)

Lemma reintersect_all_index t cs l l' :
  reintersect_all t cs l = Ok l' → index <$> l' = index <$> l.
Proof.
  revert l'. induction l as [|c rest IH]; intros l' H; simpl in H.
  - by injection H as <-.
  - apply bind_Ok in H as (s & _ & H).
    destruct (intersect t s _ _) as [sfi lnk].
    apply bind_Ok in H as (rest' & Hrest & H). injection H as <-.
    rewrite !fmap_cons. simpl. f_equal. by apply IH.
Qed.

Lemma reintersect_all_up_to_date t cs l l' :
  reintersect_all t cs l = Ok l' → Forall (up_to_date t cs) l'.
Proof.
  revert l'. induction l as [|c rest IH]; intros l' H; simpl in H.
  - injection H as <-. constructor.
  - apply bind_Ok in H as (s & Hs & H). apply indexed_object_Ok in Hs.
    destruct (intersect t s _ _) as [sfi lnk] eqn:Hi.
    apply bind_Ok in H as (rest' & Hrest & H). injection H as <-.
    constructor; [|by apply IH].
    by exists s, sfi, lnk.
Qed.

(** X7: under [e_fair_trust] [update_kernel] intersects every record of a
    kernel with candidates again and sorts them, keeping the objects they
    refer to: every record it leaves is what [intersect] gives for its
    object and this track.  It then always reports the kernel exhausted:
    the test for [e_high_trust] that follows [sort_and_set] never holds,
    since [sort_and_set] has set [e_full_trust].  The answer is false, the
    cursor is at the end and the trust level is [e_no_trust]. *)
Theorem fair_trust_update_ends_exhausted (k : kernel_kind)
    (n : navigation_state) (t : track) (cs : constituents)
    (found : bool) (n' : navigation_state) :
  trust_level n = e_fair_trust →
  empty (kernel_of k n) = false →
  update_kernel k n t cs = Ok (found, n') →
  found = false ∧
  trust_level n' = e_no_trust ∧
  is_exhausted (kernel_of k n') = true ∧
  Sorted path_le (candidates (kernel_of k n')) ∧
  index <$> candidates (kernel_of k n') ≡ₚ index <$> candidates (kernel_of k n) ∧
  Forall (up_to_date t cs) (candidates (kernel_of k n')).
Proof using sort_perm sort_sorted.
  intros Hfair Hne H. unfold update_kernel in H. simpl in H.
  rewrite Hne, Hfair in H. simpl in H.
  apply bind_Ok in H as (l & Hl & H).
  pose proof (reintersect_all_index _ _ _ _ Hl) as Hidx.
  pose proof (reintersect_all_up_to_date _ _ _ _ Hl) as Hup.
  apply bind_Ok in H as (n1 & Hs & H).
  assert (empty (kernel_of k (set_candidates k l n)) = false) as Hne1.
  { apply empty_false_length. apply empty_false_length in Hne.
    unfold set_candidates. rewrite kernel_of_set_kernel.
    unfold kernel_end in *. simpl.
    apply (f_equal length) in Hidx. rewrite !length_fmap in Hidx. lia. }
  destruct (sort_and_set_sorted _ _ _ Hne1 Hs)
    as (Hsorted & Hperm & _ & _ & _ & _ & Htrust).
  rewrite Htrust in H. simpl in H. injection H as <- <-.
  destruct (exhaust_exhausted k n1) as [Ht He].
  unfold set_candidates in Hperm. rewrite kernel_of_set_kernel in Hperm.
  simpl in Hperm.
  assert (candidates (kernel_of k (exhaust k n1)) = candidates (kernel_of k n1))
    as Hsame by (by destruct k).
  split; [done|]. split; [done|]. split; [done|].
  rewrite Hsame. split; [done|].
  split; [by rewrite Hperm, Hidx | by rewrite Hperm].
Qed.

(** ** The update under high or full trust *)

Lemma update_kernel_fuel_same_objects fuel k n t cs found n' :
  trust_level n ≠ e_fair_trust →
  empty (kernel_of k n) = false →
  update_kernel_fuel fuel k n t cs = Ok (found, n') →
  index <$> candidates (kernel_of k n') = index <$> candidates (kernel_of k n) ∧
  take (next (kernel_of k n)) (candidates (kernel_of k n'))
  = take (next (kernel_of k n)) (candidates (kernel_of k n)).
Proof.
  revert n found n'.
  induction fuel as [|fuel IH]; intros n found n' Hnf Hne H; [discriminate|].
  simpl in H. rewrite Hne in H.
  destruct (trust_geb _ _ && _).
  { apply bind_Ok in H as (cur & Hcur & H).
    apply deref_Ok in Hcur as [_ Hcur].
    apply bind_Ok in H as (s & _ & H).
    destruct (intersect t s _ _) as [sfi lnk].
    assert (index <$> <[next (kernel_of k n) :=
                          set_link lnk (set_index (index cur) sfi)]>
                        (candidates (kernel_of k n))
            = index <$> candidates (kernel_of k n)) as Hidx.
    { rewrite list_fmap_insert. simpl. apply list_insert_id.
      by rewrite list_lookup_fmap, Hcur. }
    destruct (is_inside _).
    - destruct (scalar_lt _ _); simpl in H; injection H as <- <-;
        destruct k; simpl in *; (split; [done|]); by rewrite take_insert_ge.
    - apply bind_Ok in H as ([found' n1] & Hrec & H).
      apply IH in Hrec as [Hi Ht]; [| by destruct k | by destruct k].
      assert (index <$> candidates (kernel_of k n1)
              = index <$> candidates (kernel_of k n) ∧
              take (next (kernel_of k n)) (candidates (kernel_of k n1))
              = take (next (kernel_of k n)) (candidates (kernel_of k n)))
        as Hn1.
      { split; [rewrite Hi; by destruct k|].
        apply (f_equal (take (next (kernel_of k n)))) in Ht.
        rewrite !take_take in Ht.
        destruct k; simpl in *;
          rewrite Nat.min_l in Ht by lia; exact Ht. }
      destruct found'; injection H as <- <-; [done|].
      by destruct k. }
  rewrite bool_decide_eq_false_2 in H by done.
  injection H as <- <-. by destruct k.
Qed.

Lemma candidates_after_sort k x hd rest stale room (n : navigation_state) :
  candidates
    (kernel_of k
       (set_nav_status (towards k)
          (set_current_index dindex_invalid
             (set_distance_to_next x
                (set_kernel k
                   {| candidates := hd :: rest; next := 0;
                      next_stale := stale; capacity := room |}
                   (set_trust_level e_full_trust n))))))
  = hd :: rest.
Proof. by destruct k. Qed.

(** X8: on a kernel with candidates [update_kernel] keeps the objects the
    records refer to: the indices of the records are a permutation of those
    before, and when the trust level is not [e_fair_trust] they are the
    same in the same order and the records before the cursor are left as
    they were. *)
Theorem update_kernel_keeps_objects (k : kernel_kind) (n : navigation_state)
    (t : track) (cs : constituents) (found : bool) (n' : navigation_state) :
  empty (kernel_of k n) = false →
  update_kernel k n t cs = Ok (found, n') →
  index <$> candidates (kernel_of k n') ≡ₚ index <$> candidates (kernel_of k n) ∧
  (trust_level n ≠ e_fair_trust →
   index <$> candidates (kernel_of k n') = index <$> candidates (kernel_of k n) ∧
   take (next (kernel_of k n)) (candidates (kernel_of k n'))
   = take (next (kernel_of k n)) (candidates (kernel_of k n))).
Proof using sort_perm.
  intros Hne H.
  destruct (decide (trust_level n = e_fair_trust)) as [Hfair | Hnf].
  - split; [|done].
    unfold update_kernel in H. simpl in H.
    rewrite Hne, Hfair in H. simpl in H.
    apply bind_Ok in H as (l & Hl & H).
    pose proof (reintersect_all_index _ _ _ _ Hl) as Hidx.
    apply bind_Ok in H as (n1 & Hs & H).
    assert (candidates (kernel_of k n1) ≡ₚ l) as Hc.
    { apply sort_and_set_Ok in Hs as [[_ ->] | (_ & hd & rest & Hsort & ->)].
      - unfold set_candidates. by rewrite kernel_of_set_kernel.
      - pose proof (sort_perm (candidates (kernel_of k (set_candidates k l n))))
          as Hperm.
        rewrite Hsort in Hperm. unfold set_candidates in Hperm.
        rewrite kernel_of_set_kernel in Hperm. simpl in Hperm.
        rewrite candidates_after_sort.
        exact Hperm. }
    assert (index <$> candidates (kernel_of k n1)
            ≡ₚ index <$> candidates (kernel_of k n)) as Hp
      by (by rewrite Hc, Hidx).
    destruct (bool_decide _); injection H as <- <-; [done|].
    assert (candidates (kernel_of k (exhaust k n1)) = candidates (kernel_of k n1))
      as -> by (by destruct k).
    done.
  - destruct (update_kernel_fuel_same_objects _ _ _ _ _ _ _ Hnf Hne H)
      as [Hi Ht].
    split; [by rewrite Hi | done].
Qed.

(** What [update_kernel] has found when it answers true under high or full
    trust on a kernel with candidates. *)
Lemma update_kernel_fuel_found fuel k n t cs n' :
  trust_geb (trust_level n) e_high_trust = true →
  empty (kernel_of k n) = false →
  update_kernel_fuel fuel k n t cs = Ok (true, n') →
  ∃ i cur,
    next (kernel_of k n) ≤ i ∧
    candidates (kernel_of k n') !! i = Some cur ∧
    up_to_date t cs cur ∧
    sf_status cur = e_inside ∧
    distance_to_next n' = path cur ∧
    if scalar_lt (path cur) (on_surface_tolerance n) then
      nav_status n' = on_object k ∧
      current_index n' = index cur ∧
      next (kernel_of k n') = (if kSurfaceType k then S i else i)
    else
      nav_status n' = towards k ∧
      current_index n' = current_index n ∧
      next (kernel_of k n') = i ∧
      trust_level n' = e_full_trust.
Proof.
  revert n n'.
  induction fuel as [|fuel IH]; intros n n' Htrust Hne H; [discriminate|].
  simpl in H. rewrite Hne, Htrust in H. simpl in H.
  destruct (negb (is_exhausted (kernel_of k n))).
  2:{ assert (bool_decide (trust_level n = e_fair_trust) = false) as Hnf.
      { apply bool_decide_eq_false. intros Heq. by rewrite Heq in Htrust. }
      rewrite Hnf in H. discriminate. }
  apply bind_Ok in H as (cur & Hcur & H).
  apply deref_Ok in Hcur as [_ Hcur].
  pose proof (lookup_lt_Some _ _ _ Hcur) as Hlt.
  apply bind_Ok in H as (s & Hs & H).
  unfold indexed_object in Hs.
  destruct (at_index (objects cs) (index cur)) as [s'|] eqn:Hat;
    [|discriminate].
  injection Hs as ->.
  destruct (intersect t s _ _) as [sfi lnk] eqn:Hint.
  destruct (is_inside _) eqn:Hin.
  - apply bool_decide_eq_true in Hin. simpl in Hin.
    exists (next (kernel_of k n)), (set_link lnk (set_index (index cur) sfi)).
    assert (up_to_date t cs (set_link lnk (set_index (index cur) sfi))) as Hup.
    { exists s, sfi, lnk. by repeat split. }
    simpl in H. simpl.
    destruct (scalar_lt (path sfi) (on_surface_tolerance _)) eqn:Htol;
      simpl in H; injection H as <-;
      destruct k; simpl in *; rewrite Htol;
      (split; [lia|]); (split; [by apply list_lookup_insert_eq|]);
      done.
  - apply bind_Ok in H as ([[] n1] & Hrec & H); [|discriminate].
    injection H as <-.
    apply IH in Hrec as (i & c & Hle & Hrest); [| by destruct k | by destruct k].
    exists i, c. split; [destruct k; simpl in *; lia|].
    by destruct k.
Qed.

(** X9: when [update_kernel] answers true under high or full trust on a
    kernel with candidates, there is a record at or after the old cursor
    that holds the new, inside intersection of its object, and the distance
    to next is its path.  If the path is below the tolerance the status is
    on the object with its index as current index, and the cursor is past
    the record for a surface and on the record for a portal; otherwise the
    status is towards the object, the cursor is on the record and the trust
    level is [e_full_trust]. *)
Theorem update_kernel_found (k : kernel_kind) (n : navigation_state)
    (t : track) (cs : constituents) (n' : navigation_state) :
  trust_geb (trust_level n) e_high_trust = true →
  empty (kernel_of k n) = false →
  update_kernel k n t cs = Ok (true, n') →
  ∃ i cur,
    next (kernel_of k n) ≤ i ∧
    candidates (kernel_of k n') !! i = Some cur ∧
    up_to_date t cs cur ∧
    sf_status cur = e_inside ∧
    distance_to_next n' = path cur ∧
    if scalar_lt (path cur) (on_surface_tolerance n) then
      nav_status n' = on_object k ∧
      current_index n' = index cur ∧
      next (kernel_of k n') = (if kSurfaceType k then S i else i)
    else
      nav_status n' = towards k ∧
      current_index n' = current_index n ∧
      next (kernel_of k n') = i ∧
      trust_level n' = e_full_trust.
Proof. apply update_kernel_fuel_found. Qed.

(** ** The depth of the recursion *)

Lemma update_kernel_fuel_stable fuel fuel' k n t cs :
  kernel_end (kernel_of k n) - next (kernel_of k n) < fuel →
  fuel ≤ fuel' →
  update_kernel_fuel fuel' k n t cs = update_kernel_fuel fuel k n t cs.
Proof.
  revert fuel' n. induction fuel as [|fuel IH]; intros fuel' n Hfuel Hle;
    [lia|].
  destruct fuel' as [|fuel']; [lia|].
  simpl. destruct (empty _); [done|].
  destruct (trust_geb _ _ && _); [|done].
  unfold deref. destruct (next_stale (kernel_of k n)); [done|].
  destruct (candidates (kernel_of k n) !! next (kernel_of k n)) as [cur|]
    eqn:Hcur; simpl; [|done].
  apply lookup_lt_Some in Hcur.
  destruct (indexed_object _ _); simpl; try done.
  destruct (intersect t _ _ _) as [sfi lnk].
  destruct (is_inside _); [done|].
  rewrite (IH fuel'); [done| |lia].
  unfold increment_next. rewrite kernel_of_set_kernel. unfold kernel_end in *.
  simpl. lia.
Qed.

(** X10: the calls of [update_kernel] to itself end: there is at most one
    for each candidate from the cursor on.  With that many levels the
    result is there, and more levels give the same result. *)
Theorem update_kernel_recursion_ends (fuel : nat) (k : kernel_kind)
    (n : navigation_state) (t : track) (cs : constituents) :
  kernel_end (kernel_of k n) - next (kernel_of k n) < fuel →
  update_kernel_fuel fuel k n t cs = update_kernel k n t cs ∧
  update_kernel k n t cs ≠ OutOfFuel.
Proof.
  intros Hfuel. split; [|apply update_kernel_fueled].
  unfold update_kernel. apply update_kernel_fuel_stable; lia.
Qed.


(** ** The volume index *)

Lemma check_volume_switch_cases n n' :
  check_volume_switch n = Ok n' →
  n' = n ∨
  (nav_status n' = e_on_portal ∧ trust_level n' = e_no_trust ∧
   cleared (surface_kernel n') ∧ cleared (portal_kernel n')).
Proof.
  unfold check_volume_switch. intros H.
  destruct (bool_decide _) eqn:Hst.
  - apply bool_decide_eq_true in Hst.
    apply bind_Ok in H as (cur & _ & H). injection H as <-. by right.
  - injection H as <-. by left.
Qed.

(** X11: [status] leaves the index of the volume it worked in as the volume
    index, unless it ends on a portal with the volume switched: then both
    kernels are cleared, the trust level is [e_no_trust] and the status is
    [e_on_portal].  [target] never switches the volume: it leaves the index
    of the volume it worked in, also when it reaches a portal. *)
Theorem volume_index_after_call (n : navigation_state) (t : track)
    (vol : volume) (n' : navigation_state) :
  retrieve_volume n t = Ok vol →
  (status n t = Ok n' →
   volume_index n' = vol_index vol ∨
   (nav_status n' = e_on_portal ∧ trust_level n' = e_no_trust ∧
    cleared (surface_kernel n') ∧ cleared (portal_kernel n'))) ∧
  (trust_level n ≠ e_full_trust → target n t = Ok n' →
   volume_index n' = vol_index vol).
Proof.
  intros Hvol. split.
  - unfold status. rewrite Hvol. cbn [mbind result_bind].
    set (n0 := set_volume_index (vol_index vol) n).
    assert (volume_index n0 = vol_index vol) as Hv0 by done.
    clearbody n0. intros H.
    destruct (_ || _).
    + apply bind_Ok in H as (n1 & H1 & H).
      apply initialize_kernel_frame in H1 as (_ & Hv1 & _).
      destruct (empty _).
      * apply bind_Ok in H as (n2 & H2 & H).
        apply initialize_kernel_frame in H2 as (_ & Hv2 & _).
        apply bind_Ok in H as (n3 & H3 & H). injection H as <-.
        apply check_volume_switch_cases in H3 as [-> | H3];
          [left; simpl; congruence | by right].
      * injection H as <-. left. simpl. congruence.
    + apply bind_Ok in H as ([found n1] & H1 & H).
      assert (volume_index n1 = vol_index vol) as Hv1.
      { destruct (negb _).
        - apply update_kernel_frame in H1 as (_ & Hv1 & _). congruence.
        - by injection H1 as <- <-. }
      destruct found.
      * injection H as <-. by left.
      * apply bind_Ok in H as ([found2 n2] & H2 & H).
        apply update_kernel_frame in H2 as (_ & Hv2 & _).
        apply bind_Ok in H as (n3 & H3 & H). injection H as <-.
        apply check_volume_switch_cases in H3 as [-> | H3];
          [left; simpl; congruence | by right].
  - intros Hnf. unfold target.
    rewrite bool_decide_eq_false_2 by done.
    rewrite Hvol. cbn [mbind result_bind].
    set (n0 := set_volume_index (vol_index vol) n).
    assert (volume_index n0 = vol_index vol) as Hv0 by done.
    clearbody n0. intros H.
    destruct (bool_decide _); [|by injection H as <-].
    destruct (negb _).
    + destruct (is_exhausted _).
      * apply bind_Ok in H as ([found n1] & H1 & H). injection H as <-.
        apply update_kernel_frame in H1 as (_ & Hv1 & _).
        simpl in *. congruence.
      * apply bind_Ok in H as ([found n1] & H1 & H).
        apply update_kernel_frame in H1 as (_ & Hv1 & _).
        destruct found; [injection H as <-; simpl; congruence|].
        apply bind_Ok in H as ([found2 n2] & H2 & H). injection H as <-.
        apply update_kernel_frame in H2 as (_ & Hv2 & _). simpl. congruence.
    + apply bind_Ok in H as ([found n1] & H1 & H). injection H as <-.
      apply update_kernel_frame in H1 as (_ & Hv1 & _). simpl. congruence.
Qed.

(** ** A call without trust *)

(** X12: when a [status] call without trust returns with a surface kernel
    that is not empty, only the surfaces were initialised: the portal
    kernel is as on entry and the volume is not switched.  If the volume has
    surfaces the call ends at full trust with the cursor at the head, the
    status [e_towards_surface] and the sentinel as current index; if it has
    none, the old records stay and the trust level stays [e_no_trust]. *)
Theorem status_without_trust_stops_at_surfaces (n : navigation_state)
    (t : track) (vol : volume) (n' : navigation_state) :
  retrieve_volume n t = Ok vol →
  trust_level n = e_no_trust →
  status n t = Ok n' →
  empty (surface_kernel n') = false →
  portal_kernel n' = portal_kernel n ∧
  volume_index n' = vol_index vol ∧
  (objects (surfaces vol) ≠ [] →
   nav_status n' = e_towards_surface ∧
   trust_level n' = e_full_trust ∧
   next (surface_kernel n') = 0 ∧
   current_index n' = dindex_invalid) ∧
  (objects (surfaces vol) = [] →
   surface_kernel n' = surface_kernel n ∧ trust_level n' = e_no_trust).
Proof using sort_perm sort_sorted.
  intros Hvol Htrust H Hne. unfold status in H. rewrite Hvol in H.
  cbn [mbind result_bind] in H. cbn zeta in H.
  assert (trust_level (set_volume_index (vol_index vol) n) = e_no_trust)
    as Ht0 by done.
  assert (portal_kernel (set_volume_index (vol_index vol) n) = portal_kernel n)
    as Hp0 by done.
  assert (surface_kernel (set_volume_index (vol_index vol) n) = surface_kernel n)
    as Hs0 by done.
  assert (volume_index (set_volume_index (vol_index vol) n) = vol_index vol)
    as Hv0 by done.
  set (n0 := set_volume_index (vol_index vol) n) in *. clearbody n0.
  rewrite Ht0 in H. rewrite orb_true_r in H.
  apply bind_Ok in H as (n1 & H1 & H).
  destruct (empty (surface_kernel n1)) eqn:Hemp1.
  - apply bind_Ok in H as (n2 & H2 & H).
    apply initialize_kernel_frame in H2 as (Hs2 & _). simpl in Hs2.
    apply bind_Ok in H as (n3 & H3 & H). injection H as <-.
    apply check_volume_switch_cases in H3 as [-> | (_ & _ & Hs3 & _)].
    + simpl in Hne. rewrite Hs2 in Hne. congruence.
    + simpl in Hne. rewrite Hs3 in Hne. done.
  - injection H as <-. simpl.
    pose proof (initialize_kernel_frame _ _ _ _ _ H1) as (Hp1 & Hv1 & _).
    simpl in Hp1. split; [congruence|]. split; [congruence|]. split.
    + intros Hobj. unfold initialize_kernel in H1.
      destruct (Nat.eqb _ _) eqn:Hn.
      { apply Nat.eqb_eq in Hn.
        destruct (objects (surfaces vol)); [done | simpl in Hn; lia]. }
      pose proof H1 as H1'.
      apply sort_and_set_Ok in H1' as [[He Heq] | (He & _)].
      { rewrite <- Heq in He. simpl in He. congruence. }
      by destruct (sort_and_set_sorted _ _ _ He H1)
        as (_ & _ & ? & _ & ? & ? & ?).
    + intros Hobj. unfold initialize_kernel in H1. rewrite Hobj in H1.
      simpl in H1. injection H1 as <-. split; congruence.
Qed.


(** ** Exhausted surfaces and portals already held *)

(** X13: [target] under high trust with a surface kernel that has records
    and is exhausted clears the surface kernel and sets the trust level to
    [e_no_trust] before it turns to the portals.  When the portal kernel
    already holds records, [update_kernel] therefore intersects none of
    them: the records stay as they are, the cursor goes to the end, and the
    call returns without trust, with the status, the current index and the
    distance to next as on entry. *)
Theorem target_exhausted_surfaces_held_portals (n : navigation_state)
    (t : track) (vol : volume) :
  retrieve_volume n t = Ok vol →
  trust_level n = e_high_trust →
  empty (surface_kernel n) = false →
  is_exhausted (surface_kernel n) = true →
  empty (portal_kernel n) = false →
  target n t =
    Ok (inspect
          {| surface_kernel :=
               {| candidates := []; next := 0; next_stale := false;
                  capacity := capacity (surface_kernel n) |};
             portal_kernel :=
               {| candidates := candidates (portal_kernel n);
                  next := length (candidates (portal_kernel n));
                  next_stale := false;
                  capacity := capacity (portal_kernel n) |};
             volume_index := vol_index vol;
             distance_to_next := distance_to_next n;
             on_surface_tolerance := on_surface_tolerance n;
             inspector := inspector n;
             nav_status := nav_status n;
             current_index := current_index n;
             trust_level := e_no_trust |}).
Proof.
  intros Hvol Htrust Hsne Hsex Hpne. unfold target.
  rewrite Htrust, Hvol. simpl. rewrite Htrust, Hsne, Hsex. simpl.
  unfold update_kernel. simpl. rewrite Hpne. simpl. reflexivity.
Qed.

End Navigator.

(** * A detector of parallel planes

    An instance to run the navigator on.  The track moves along +x from the
    point (x, y); every object is a plane x = [plane_x] with the mask
    |y| <= [half_width]; a portal links to the volume [neighbour].  Lengths
    are rationals with a point at infinity. *)

Inductive length_scalar : Type :=
| finite (q : Q)
| infinite.

Definition length_lt (a b : length_scalar) : bool :=
  match a, b with
  | finite x, finite y => negb (Qle_bool y x)
  | finite _, infinite => true
  | infinite, _ => false
  end.

Record line_track : Type := mk_track { pos_x : Q; pos_y : Q }.

Record plane : Type := mk_plane {
  plane_x : Q;
  half_width : Q;
  neighbour : dindex
}.

Abbreviation record := (@intersection length_scalar).

(** A plane behind the track is missed; otherwise the path is the distance
    along x and the mask decides between inside and outside. *)
Definition plane_intersect (t : line_track) (p : plane) (_ _ : unit)
  : record * dindex :=
  let d := (plane_x p - pos_x t)%Q in
  if negb (Qle_bool 0 d) then
    ({| path := infinite; sf_status := e_missed;
        index := dindex_invalid; link := dindex_invalid |}, neighbour p)
  else
    ({| path := finite d;
        sf_status :=
          if Qle_bool (- half_width p) (pos_y t) && Qle_bool (pos_y t) (half_width p)
          then e_inside else e_outside;
        index := dindex_invalid; link := dindex_invalid |}, neighbour p).

(** Insertion sort with [intersection::operator<]. *)
Fixpoint insert_sorted (c : record) (l : list record) : list record :=
  match l with
  | [] => [c]
  | h :: rest =>
      if intersection_lt length_lt c h then c :: h :: rest
      else h :: insert_sorted c rest
  end.

Fixpoint insertion_sort (l : list record) : list record :=
  match l with
  | [] => []
  | c :: rest => insert_sorted c (insertion_sort rest)
  end.

Lemma length_lt_asym a b : length_lt a b = true → length_lt b a = false.
Proof.
  destruct a as [x|], b as [y|]; simpl; try done.
  intros H. apply negb_true_iff in H. apply negb_false_iff.
  apply Qle_bool_iff.
  destruct (Qlt_le_dec x y) as [Hlt | Hle]; [by apply Qlt_le_weak|].
  apply Qle_bool_iff in Hle. congruence.
Qed.

Lemma insert_sorted_perm c l : insert_sorted c l ≡ₚ c :: l.
Proof.
  induction l as [|h rest IH]; simpl; [done|].
  destruct (intersection_lt _ _ _); [done|].
  rewrite IH. apply Permutation_swap.
Qed.

Lemma insertion_sort_perm l : insertion_sort l ≡ₚ l.
Proof.
  induction l as [|c rest IH]; simpl; [done|].
  by rewrite insert_sorted_perm, IH.
Qed.

Lemma insert_sorted_sorted c l :
  Sorted (path_le length_lt) l → Sorted (path_le length_lt) (insert_sorted c l).
Proof.
  induction 1 as [|h rest Hs IH Hhd]; simpl.
  - by repeat constructor.
  - destruct (intersection_lt length_lt c h) eqn:Hlt.
    + constructor; [by constructor|]. constructor.
      by apply length_lt_asym.
    + constructor; [done|].
      destruct rest as [|h' rest']; simpl.
      * by constructor.
      * destruct (intersection_lt length_lt c h'); constructor; try done.
        by inversion Hhd.
Qed.

Lemma insertion_sort_sorted l : Sorted (path_le length_lt) (insertion_sort l).
Proof.
  induction l as [|c rest IH]; simpl; [constructor|].
  by apply insert_sorted_sorted.
Qed.

(** The inspector of the instance records the volume, the status and the
    current index it is shown, most recent first. *)
Definition trace := list (dindex * navigation_status * dindex).

Abbreviation state := (@navigation_state length_scalar trace).

Definition trace_call (i : trace) (n : state) : trace :=
  (volume_index n, nav_status n, current_index n) :: i.

Definition plane_store (l : list plane) : @constituents plane unit unit :=
  {| objects := l; transforms := tt; masks := tt |}.

Definition tolerance : length_scalar := finite (1 # 100000).

Definition fresh : state := initial_state infinite tolerance [].

(** A full vector doubles its capacity. *)
Definition doubling (room : nat) : nat := Nat.pred room.

Abbreviation plane_sort_and_set :=
  (sort_and_set (inspector_type:=trace) length_lt insertion_sort).
Abbreviation plane_update_kernel :=
  (update_kernel (inspector_type:=trace) length_lt doubling plane_intersect
     insertion_sort).
Abbreviation plane_status :=
  (status length_lt doubling trace_call plane_intersect insertion_sort).
Abbreviation plane_target :=
  (target length_lt doubling trace_call plane_intersect insertion_sort).

(** What the stepper and the caller do between two calls: the track is
    moved by the caller, and the trust level is lowered. *)
Definition lowered (l : navigation_trust_level) (n : state) : state :=
  set_trust_level l n.

Definition inside_at (p : Q) (i l : dindex) : record :=
  {| path := finite p; sf_status := e_inside; index := i; link := l |}.
Arguments inside_at p%_Q (i l)%_N.

(** ** Two surfaces, a portal and an empty neighbour

    Volume 0 holds the surfaces x = 3 and x = 5 and the portal x = 10 to
    volume 1, which holds nothing. *)
Definition surfaces_0 : @constituents plane unit unit :=
  plane_store [mk_plane 3 1 0%N; mk_plane 5 1 0%N].

Definition two_surfaces : @detector_type line_track plane unit unit :=
  let v0 := {| vol_index := 0%N;
               surfaces := surfaces_0;
               portals := plane_store [mk_plane 10 1 1%N] |} in
  let v1 := {| vol_index := 1%N;
               surfaces := plane_store [];
               portals := plane_store [] |} in
  {| volumes := [v0; v1]; volume_search := fun _ => v0 |}.

(** The state after the first [status] call at the origin. *)
Definition towards_first : state :=
  {| surface_kernel :=
       {| candidates := [inside_at 3 0 0; inside_at 5 1 0]; next := 0;
          next_stale := false; capacity := 2 |};
     portal_kernel :=
       {| candidates := []; next := 0; next_stale := false; capacity := 0 |};
     volume_index := 0%N;
     distance_to_next := finite 3;
     on_surface_tolerance := tolerance;
     inspector := [(0%N, e_towards_surface, dindex_invalid)];
     nav_status := e_towards_surface;
     current_index := dindex_invalid;
     trust_level := e_full_trust |}.

Lemma first_status :
  plane_status two_surfaces fresh (mk_track 0 0) = Ok towards_first.
Proof. vm_compute. reflexivity. Qed.

(** The run up to the portal: both surfaces are reached and left, the
    surface kernel is cleared and the portal kernel is initialised. *)
Definition towards_portal : state :=
  {| surface_kernel :=
       {| candidates := []; next := 0; next_stale := false; capacity := 2 |};
     portal_kernel :=
       {| candidates := [inside_at 5 0 1]; next := 0;
          next_stale := false; capacity := 1 |};
     volume_index := 0%N;
     distance_to_next := finite 5;
     on_surface_tolerance := tolerance;
     inspector :=
       [(0%N, e_towards_portal, dindex_invalid); (0%N, e_on_surface, 1%N);
        (0%N, e_towards_surface, 0%N); (0%N, e_on_surface, 0%N);
        (0%N, e_towards_surface, dindex_invalid)];
     nav_status := e_towards_portal;
     current_index := dindex_invalid;
     trust_level := e_full_trust |}.

Lemma run_to_portal :
  (n ← plane_status two_surfaces fresh (mk_track 0 0);
   n ← plane_target two_surfaces n (mk_track 0 0);
   n ← plane_status two_surfaces (lowered e_high_trust n) (mk_track 3 0);
   n ← plane_target two_surfaces n (mk_track 3 0);
   n ← plane_status two_surfaces (lowered e_high_trust n) (mk_track 5 0);
   plane_target two_surfaces n (mk_track 5 0)) = Ok towards_portal.
Proof. vm_compute. reflexivity. Qed.

(** The state after the [status] call on the portal: the volume is
    switched. *)
Definition crossed : state :=
  {| surface_kernel :=
       {| candidates := []; next := 0; next_stale := false; capacity := 2 |};
     portal_kernel :=
       {| candidates := []; next := 0; next_stale := false; capacity := 1 |};
     volume_index := 1%N;
     distance_to_next := finite 0;
     on_surface_tolerance := tolerance;
     inspector := (1%N, e_on_portal, 0%N) :: inspector towards_portal;
     nav_status := e_on_portal;
     current_index := 0%N;
     trust_level := e_no_trust |}.

Lemma status_on_portal :
  plane_status two_surfaces (lowered e_high_trust towards_portal) (mk_track 10 0)
  = Ok crossed.
Proof. vm_compute. reflexivity. Qed.


(** ** sort_and_set with the head within the tolerance *)

(** A surface kernel whose only candidate, the surface 7, is at path 0. *)
Definition on_surface_7 : state :=
  {| surface_kernel := {| candidates := [inside_at 0 7 0]; next := 0;
          next_stale := false; capacity := 1 |};
     portal_kernel :=
       {| candidates := []; next := 0; next_stale := false; capacity := 0 |};
     volume_index := 0%N;
     distance_to_next := infinite;
     on_surface_tolerance := tolerance;
     inspector := [];
     nav_status := e_unknown;
     current_index := dindex_invalid;
     trust_level := e_no_trust |}.

(** C1: with one candidate at path 0, below the tolerance,
    [sort_and_set] ends with the status [e_towards_surface] and the
    sentinel as current index: the assignments of [e_on_surface] and of the
    index 7 are overwritten by the two assignments after the test. *)
Theorem sort_and_set_head_within_tolerance :
  length_lt (finite 0) (on_surface_tolerance on_surface_7) = true ∧
  ∃ n',
    plane_sort_and_set surface_kind on_surface_7 = Ok n' ∧
    next (surface_kernel n') = 0 ∧
    distance_to_next n' = finite 0 ∧
    nav_status n' = e_towards_surface ∧
    current_index n' = dindex_invalid.
Proof. split; [reflexivity|]. eexists. by vm_compute. Qed.

(** ** The volume switch *)

(** The state inside [status] on the portal, after [update_kernel] and
    before [check_volume_switch]. *)
Definition at_portal : state :=
  {| surface_kernel :=
       {| candidates := []; next := 0; next_stale := false; capacity := 2 |};
     portal_kernel :=
       {| candidates := [inside_at 0 0 1]; next := 0;
          next_stale := false; capacity := 1 |};
     volume_index := 0%N;
     distance_to_next := finite 0;
     on_surface_tolerance := tolerance;
     inspector := inspector towards_portal;
     nav_status := e_on_portal;
     current_index := 0%N;
     trust_level := e_high_trust |}.

Lemma update_on_portal :
  plane_update_kernel portal_kind (lowered e_high_trust towards_portal)
    (mk_track 10 0) (plane_store [mk_plane 10 1 1%N])
  = Ok (true, at_portal).
Proof. vm_compute. reflexivity. Qed.

Lemma check_volume_switch_on_portal_witness :
  check_volume_switch at_portal =
    Ok {| surface_kernel :=
            {| candidates := []; next := 0; next_stale := false; capacity := 2 |};
          portal_kernel :=
            {| candidates := []; next := 0; next_stale := false; capacity := 1 |};
          volume_index := 1%N;
          distance_to_next := finite 0;
          on_surface_tolerance := tolerance;
          inspector := inspector towards_portal;
          nav_status := e_on_portal;
          current_index := 0%N;
          trust_level := e_no_trust |}.
Proof.
  apply (check_volume_switch_on_portal at_portal (inside_at 0 0 1));
    reflexivity.
Defined.

(** C2 refuted as stated: the [status] call that crosses the portal x = 10
    switches to volume 1, clears both kernels and drops the trust, and the
    status it leaves is [e_on_portal], not [e_unknown]. *)
Lemma volume_switch_status_not_unknown :
  ∃ n',
    plane_status two_surfaces (lowered e_high_trust towards_portal)
      (mk_track 10 0) = Ok n' ∧
    volume_index n' = 1%N ∧
    empty (surface_kernel n') = true ∧ empty (portal_kernel n') = true ∧
    trust_level n' = e_no_trust ∧
    nav_status n' = e_on_portal ∧
    nav_status n' ≠ e_unknown.
Proof. eexists. split; [apply status_on_portal|]. by vm_compute. Qed.

(** ** A portal at the boundary of the world

    One volume with no surface and the portal x = 5, whose link is the
    sentinel. *)
Definition world_exit : @detector_type line_track plane unit unit :=
  let v0 := {| vol_index := 0%N;
               surfaces := plane_store [];
               portals := plane_store [mk_plane 5 1 dindex_invalid] |} in
  {| volumes := [v0]; volume_search := fun _ => v0 |}.

Definition towards_exit : state :=
  {| surface_kernel :=
       {| candidates := []; next := 0; next_stale := false; capacity := 0 |};
     portal_kernel :=
       {| candidates := [inside_at 5 0 dindex_invalid]; next := 0;
          next_stale := false; capacity := 1 |};
     volume_index := 0%N;
     distance_to_next := finite 5;
     on_surface_tolerance := tolerance;
     inspector := [(0%N, e_towards_portal, dindex_invalid)];
     nav_status := e_towards_portal;
     current_index := dindex_invalid;
     trust_level := e_full_trust |}.

Lemma status_towards_exit :
  plane_status world_exit fresh (mk_track 0 0) = Ok towards_exit.
Proof. vm_compute. reflexivity. Qed.

(** C4 refuted as stated: on the portal whose link is the world sentinel,
    [status] stores the sentinel in the volume index and leaves the status
    [e_on_portal]; the status is not [e_on_target]. *)
Lemma world_exit_not_on_target :
  ∃ n',
    plane_status world_exit (lowered e_high_trust towards_exit) (mk_track 5 0)
      = Ok n' ∧
    volume_index n' = dindex_invalid ∧
    nav_status n' = e_on_portal ∧
    nav_status n' ≠ e_on_target.
Proof. eexists. split; [by vm_compute|]. by vm_compute. Qed.

(** The state inside that call, before [check_volume_switch]. *)
Definition at_exit : state :=
  {| surface_kernel :=
       {| candidates := []; next := 0; next_stale := false; capacity := 0 |};
     portal_kernel :=
       {| candidates := [inside_at 0 0 dindex_invalid]; next := 0;
          next_stale := false; capacity := 1 |};
     volume_index := 0%N;
     distance_to_next := finite 0;
     on_surface_tolerance := tolerance;
     inspector := [(0%N, e_towards_portal, dindex_invalid)];
     nav_status := e_on_portal;
     current_index := 0%N;
     trust_level := e_high_trust |}.

Lemma check_volume_switch_any_link_witness :
  ∃ n',
    check_volume_switch at_exit = Ok n' ∧
    volume_index n' = dindex_invalid ∧
    empty (surface_kernel n') = true ∧
    empty (portal_kernel n') = true ∧
    nav_status n' = e_on_portal ∧
    ∀ t n'',
      plane_status world_exit n' t = Ok n'' ∨
      plane_target world_exit n' t = Ok n'' →
      nav_status n'' ≠ e_on_target ∧ nav_status n'' ≠ e_abort.
Proof.
  apply (check_volume_switch_any_link length_lt doubling trace_call plane_intersect
           insertion_sort world_exit at_exit (inside_at 0 0 dindex_invalid));
    reflexivity.
Defined.


(** ** After the crossing into the empty volume *)

(** C3: the states are those of the run [run_to_portal] followed by
    [status_on_portal].  The state [crossed] still has the status
    [e_on_portal]; in volume 1 neither kernel gets a candidate, so the next
    [status] call reaches [check_volume_switch] with that status and
    dereferences the cursor of the empty portal kernel. *)
Theorem status_after_crossing_invalid_access :
  (n ← plane_status two_surfaces fresh (mk_track 0 0);
   n ← plane_target two_surfaces n (mk_track 0 0);
   n ← plane_status two_surfaces (lowered e_high_trust n) (mk_track 3 0);
   n ← plane_target two_surfaces n (mk_track 3 0);
   n ← plane_status two_surfaces (lowered e_high_trust n) (mk_track 5 0);
   n ← plane_target two_surfaces n (mk_track 5 0);
   plane_status two_surfaces (lowered e_high_trust n) (mk_track 10 0))
  = Ok crossed ∧
  is_exhausted (portal_kernel crossed) = true ∧
  plane_status two_surfaces crossed (mk_track 10 0) = InvalidAccess.
Proof. by vm_compute. Qed.

(** The claimed postcondition of [target]: the distance to next is finite
    and positive, or both kernels are exhausted and the status is
    [e_abort] or [e_on_target]. *)
Definition target_postcondition (n : state) : Prop :=
  (∃ q, distance_to_next n = finite q ∧ (0 < q)%Q) ∨
  (is_exhausted (surface_kernel n) = true ∧
   is_exhausted (portal_kernel n) = true ∧
   (nav_status n = e_abort ∨ nav_status n = e_on_target)).

(** C5 refuted as stated: after the crossing both kernels are empty; the
    [target] call that follows returns with the distance 0 and the status
    [e_on_portal]. *)
Lemma target_after_crossing_no_postcondition :
  ∃ n',
    plane_target two_surfaces crossed (mk_track 10 0) = Ok n' ∧
    ¬ target_postcondition n'.
Proof.
  eexists. split; [by vm_compute|].
  intros [(q & Hq & Hpos) | (_ & _ & [H | H])]; try discriminate.
  simpl in Hq. injection Hq as <-. by apply Qlt_irrefl in Hpos.
Qed.

(** With the track at x = 6 both surfaces are behind it: under high trust
    [update_kernel] steps over both records and finds the kernel
    exhausted. *)
Definition both_behind : state :=
  {| surface_kernel :=
       {| candidates := [inside_at 3 0 0; inside_at 5 1 0]; next := 2;
          next_stale := false; capacity := 2 |};
     portal_kernel :=
       {| candidates := []; next := 0; next_stale := false; capacity := 0 |};
     volume_index := 0%N;
     distance_to_next := finite 3;
     on_surface_tolerance := tolerance;
     inspector := [(0%N, e_towards_surface, dindex_invalid)];
     nav_status := e_towards_surface;
     current_index := dindex_invalid;
     trust_level := e_no_trust |}.

Lemma exhausted_kernel_no_abort_witness :
  trust_level both_behind = e_no_trust ∧
  is_exhausted (kernel_of surface_kind both_behind) = true ∧
  (∀ t' n2,
     plane_status two_surfaces both_behind t' = Ok n2 ∨
     plane_target two_surfaces both_behind t' = Ok n2 →
     (nav_status n2 = e_abort →
      nav_status (lowered e_high_trust towards_first) = e_abort) ∧
     (nav_status n2 = e_on_target →
      nav_status (lowered e_high_trust towards_first) = e_on_target)) ∧
  (∀ t' n2,
     plane_target two_surfaces both_behind t' = Ok n2 →
     distance_to_next n2 = distance_to_next both_behind ∧
     nav_status n2 = nav_status both_behind ∧
     surface_kernel n2 = surface_kernel both_behind ∧
     portal_kernel n2 = portal_kernel both_behind ∧
     trust_level n2 = e_no_trust).
Proof.
  apply (exhausted_kernel_no_abort length_lt doubling trace_call plane_intersect
           insertion_sort two_surfaces surface_kind
           (lowered e_high_trust towards_first) (mk_track 6 0) surfaces_0
           both_behind).
  vm_compute. reflexivity.
Defined.

(** ** Order of the candidates *)

(** C6 refuted as stated.  Under high trust [status] overwrites the record
    under the cursor and does not sort: with the track at x = -10 the first
    record gets the path 13 while the second keeps the path 5.  Without
    trust [status] initialises the surface kernel again without clearing
    it: the kernel keeps its two records and gets two more, and the cursor
    goes from the end, 2, back to the head. *)
Lemma status_leaves_unsorted_and_rewinds :
  (∃ n',
     plane_status two_surfaces (lowered e_high_trust towards_first)
       (mk_track (-10) 0) = Ok n' ∧
     candidates (surface_kernel n') = [inside_at 13 0 0; inside_at 5 1 0] ∧
     ¬ Sorted (path_le length_lt) (candidates (surface_kernel n'))) ∧
  (∃ n',
     plane_status two_surfaces both_behind (mk_track 0 0) = Ok n' ∧
     next (surface_kernel both_behind) = 2 ∧
     next_stale (surface_kernel both_behind) = false ∧
     length (candidates (surface_kernel n')) = 4 ∧
     next (surface_kernel n') = 0 ∧
     next_stale (surface_kernel n') = false).
Proof.
  split.
  - eexists. split; [by vm_compute|]. split; [by vm_compute|].
    simpl. intros H. inversion H as [|? ? _ Hhd]. inversion Hhd as [|? ? Hle].
    vm_compute in Hle. discriminate.
  - eexists. split; [by vm_compute|]. by vm_compute.
Qed.

Lemma sorted_at_sort_and_set_cursor_forward_witness :
  ∃ n1 n2,
    plane_update_kernel surface_kind (lowered e_high_trust towards_first)
      (mk_track 3 0) surfaces_0 = Ok (true, n1) ∧
    plane_status two_surfaces (lowered e_high_trust towards_first)
      (mk_track 3 0) = Ok n2 ∧
    (next (kernel_of surface_kind (lowered e_high_trust towards_first))
       ≤ next (kernel_of surface_kind n1) ∧
     cursor_valid (kernel_of surface_kind n1)) ∧
    (cleared (kernel_of surface_kind n2) ∨
     next (kernel_of surface_kind (lowered e_high_trust towards_first))
       ≤ next (kernel_of surface_kind n2) ∧
     cursor_valid (kernel_of surface_kind n2)).
Proof.
  destruct (sorted_at_sort_and_set_cursor_forward length_lt doubling
              trace_call plane_intersect insertion_sort two_surfaces
              insertion_sort_perm insertion_sort_sorted
              surface_kind (lowered e_high_trust towards_first)
              (mk_track 3 0) surfaces_0) as (_ & _ & H).
  destruct H as (Hup & _ & Hst);
    [reflexivity | split; [reflexivity | vm_compute; lia] |].
  do 2 eexists.
  split; [vm_compute; reflexivity|]. split; [vm_compute; reflexivity|].
  split.
  - apply (Hup true). vm_compute. reflexivity.
  - apply (Hst {| vol_index := 0%N;
                  surfaces := surfaces_0;
                  portals := plane_store [mk_plane 10 1 1%N] |}).
    + reflexivity.
    + discriminate.
    + discriminate.
    + vm_compute. reflexivity.
Defined.

(** ** Records that are not inside *)

(** C7 refuted as stated: the caller lowers the trust to
    [e_fair_trust] and the track is at y = 2, outside the masks.
    [status] intersects both records again and keeps them with the status
    [e_outside]. *)
Lemma fair_trust_keeps_outside_records :
  ∃ n',
    plane_status two_surfaces (lowered e_fair_trust towards_first)
      (mk_track 1 2) = Ok n' ∧
    sf_status <$> candidates (surface_kernel n') = [e_outside; e_outside] ∧
    ¬ all_inside n'.
Proof.
  eexists. split; [by vm_compute|]. split; [by vm_compute|].
  intros [H _]. unfold inside_only in H. simpl in H.
  inversion H as [|? ? Hin _]. discriminate.
Qed.

Lemma inside_records_kept_witness :
  ∃ n',
    plane_status two_surfaces (lowered e_high_trust towards_first)
      (mk_track 3 0) = Ok n' ∧
    all_inside n'.
Proof.
  eexists. split; [by vm_compute|].
  destruct (inside_records_kept length_lt doubling trace_call plane_intersect
              insertion_sort two_surfaces insertion_sort_perm
              (lowered e_high_trust towards_first) (mk_track 3 0)
              _ ltac:(discriminate)
              ltac:(split; unfold inside_only; simpl; repeat constructor)
              ltac:(left; vm_compute; reflexivity))
    as [Hin _].
  exact Hin.
Defined.

(** ** A second call with the track unchanged *)

(** C8 refuted as stated: the track is on the surface x = 3.  The first
    [status] call finds the surface reached and moves the cursor on; the
    second call, with the same track, targets the surface x = 5: the status,
    the distance to next and the trust level differ. *)
Lemma status_twice_differs :
  ∃ n1 n2,
    plane_status two_surfaces (lowered e_high_trust towards_first)
      (mk_track 3 0) = Ok n1 ∧
    plane_status two_surfaces n1 (mk_track 3 0) = Ok n2 ∧
    nav_status n1 = e_on_surface ∧ nav_status n2 = e_towards_surface ∧
    distance_to_next n1 = finite 0 ∧ distance_to_next n2 = finite 2 ∧
    trust_level n1 = e_high_trust ∧ trust_level n2 = e_full_trust ∧
    n2 ≠ inspect trace_call n1.
Proof.
  do 2 eexists. split; [by vm_compute|]. split; [by vm_compute|].
  repeat split; try (by vm_compute).
Qed.

(** The first call starts without trust on cleared kernels, or at high
    trust with the track at x = 1, before the first surface. *)
Lemma status_twice_same_state_witness :
  plane_status two_surfaces towards_first (mk_track 0 0)
  = Ok (inspect trace_call towards_first) ∧
  ∃ n1,
    plane_status two_surfaces (lowered e_high_trust towards_first)
      (mk_track 1 0) = Ok n1 ∧
    plane_status two_surfaces n1 (mk_track 1 0) = Ok (inspect trace_call n1).
Proof.
  split.
  - apply (status_twice_same_state length_lt doubling trace_call
             plane_intersect insertion_sort two_surfaces insertion_sort_perm
             insertion_sort_sorted fresh (mk_track 0 0)
             {| vol_index := 0%N;
                surfaces := surfaces_0;
                portals := plane_store [mk_plane 10 1 1%N] |}
             towards_first).
    + reflexivity.
    + discriminate.
    + reflexivity.
    + intros _. split; constructor.
    + exact first_status.
    + reflexivity.
    + reflexivity.
  - eexists. split; [vm_compute; reflexivity|].
    apply (status_twice_same_state length_lt doubling trace_call
             plane_intersect insertion_sort two_surfaces insertion_sort_perm
             insertion_sort_sorted (lowered e_high_trust towards_first)
             (mk_track 1 0)
             {| vol_index := 0%N;
                surfaces := surfaces_0;
                portals := plane_store [mk_plane 10 1 1%N] |}).
    + reflexivity.
    + discriminate.
    + reflexivity.
    + discriminate.
    + vm_compute. reflexivity.
    + reflexivity.
    + reflexivity.
Defined.

(** A surface kernel that is not cleared, with a record for the surface
    x = 3 that says 1 where the track at the origin is 3 away. *)
Definition outdated : state :=
  {| surface_kernel :=
       {| candidates := [inside_at 1 0 0]; next := 1;
          next_stale := false; capacity := 2 |};
     portal_kernel :=
       {| candidates := []; next := 0; next_stale := false; capacity := 0 |};
     volume_index := 0%N;
     distance_to_next := finite 1;
     on_surface_tolerance := tolerance;
     inspector := [];
     nav_status := e_towards_surface;
     current_index := dindex_invalid;
     trust_level := e_no_trust |}.

(** Without trust [status] does not clear the kernel: the old record stays
    and sorts first.  The call ends at full trust with the distance 1; the
    second call intersects that record again and corrects the distance
    to 3. *)
Lemma status_twice_outdated_record :
  ∃ n1 n2,
    plane_status two_surfaces outdated (mk_track 0 0) = Ok n1 ∧
    trust_level n1 = e_full_trust ∧
    distance_to_next n1 = finite 1 ∧
    plane_status two_surfaces n1 (mk_track 0 0) = Ok n2 ∧
    distance_to_next n2 = finite 3.
Proof.
  do 2 eexists. split; [by vm_compute|]. split; [by vm_compute|].
  split; [by vm_compute|]. split; by vm_compute.
Qed.

(** ** A status set from outside *)

(** C9 refuted as stated: with the status [e_on_target] on entry, [status]
    initialises the surface kernel and sets the status to
    [e_towards_surface]; with the status [e_abort] on entry and high trust,
    [target] updates the surface kernel and sets the status likewise. *)
Lemma terminal_status_is_not_checked :
  (∃ n',
     plane_status two_surfaces (set_nav_status e_on_target fresh) (mk_track 0 0)
       = Ok n' ∧
     nav_status n' = e_towards_surface ∧
     length (candidates (surface_kernel n')) = 2 ∧
     distance_to_next n' = finite 3) ∧
  (∃ n',
     plane_target two_surfaces
       (set_nav_status e_abort (lowered e_high_trust towards_first))
       (mk_track 1 0) = Ok n' ∧
     nav_status n' = e_towards_surface ∧
     distance_to_next n' = finite 2 ∧
     trust_level n' = e_full_trust).
Proof. split; eexists; (split; [by vm_compute|]); by vm_compute. Qed.

Lemma target_full_trust_no_work_witness :
  plane_target two_surfaces (set_nav_status e_on_target towards_first)
    (mk_track 0 0)
  = Ok (set_nav_status e_on_target towards_first).
Proof.
  apply (target_full_trust_no_work length_lt doubling trace_call plane_intersect
           insertion_sort two_surfaces
           (set_nav_status e_on_target towards_first) (mk_track 0 0)).
  reflexivity.
Defined.

(** ** The reached candidate *)

Lemma update_kernel_reached_surface_witness :
  ∃ n',
    plane_update_kernel surface_kind (lowered e_high_trust towards_first)
      (mk_track 3 0) surfaces_0 = Ok (true, n') ∧
    nav_status n' = e_on_surface ∧
    current_index n' = 0%N ∧
    next (surface_kernel n') = 1 ∧
    trust_level n' = e_high_trust.
Proof.
  destruct (update_kernel_reached_surface_vs_portal length_lt doubling plane_intersect
              insertion_sort (lowered e_high_trust towards_first)
              (mk_track 3 0) surfaces_0 surface_kind (inside_at 3 0 0)
              (mk_plane 3 1 0%N)
              {| path := finite 0; sf_status := e_inside;
                 index := dindex_invalid; link := dindex_invalid |} 0%N)
    as (n' & Hup & Hst & Hidx & Hnext & Htrust); try reflexivity.
  exists n'. repeat split; assumption.
Defined.


(** ** A cursor left behind by reserve

    With the track at x = 6 no surface is ahead.  The first [status] call
    reserves room for the two surfaces and finds none inside: the surface
    kernel stays empty, its cursor is stale and the kernel does not count as
    exhausted.  On the portal, at x = 10 and under high trust, [status]
    turns to the surface kernel, initialises it again and returns: the
    portal is not looked at, the volume is not switched and the distance to
    next stays 4. *)
Lemma stale_cursor_hides_portal :
  ∃ n1 n2,
    (n ← plane_status two_surfaces fresh (mk_track 6 0);
     plane_target two_surfaces n (mk_track 6 0)) = Ok n1 ∧
    empty (surface_kernel n1) = true ∧
    next_stale (surface_kernel n1) = true ∧
    is_exhausted (surface_kernel n1) = false ∧
    plane_status two_surfaces (lowered e_high_trust n1) (mk_track 10 0)
      = Ok n2 ∧
    volume_index n2 = 0%N ∧
    nav_status n2 = e_towards_portal ∧
    distance_to_next n2 = finite 4 ∧
    trust_level n2 = e_high_trust.
Proof.
  do 2 eexists. split; [by vm_compute|].
  do 3 (split; [by vm_compute|]).
  split; [by vm_compute|]. by vm_compute.
Qed.


(** * The further properties on the detector of planes *)

Abbreviation plane_initialize_kernel :=
  (initialize_kernel (inspector_type:=trace) length_lt doubling plane_intersect
     insertion_sort).

Definition volume_0 : @volume plane unit unit :=
  {| vol_index := 0%N;
     surfaces := surfaces_0;
     portals := plane_store [mk_plane 10 1 1%N] |}.

Ltac fits_by_computation :=
  split;
  [ first [ left; reflexivity
          | right; split; [reflexivity | unfold kernel_end; simpl; lia] ]
  | unfold indexed_in; simpl; repeat constructor; by eexists ].

(** The surface kernel of [both_behind] is not cleared: it keeps its two
    records and gets one more for each of the two surfaces. *)
Lemma initialize_kernel_records_witness :
  ∃ n',
    plane_initialize_kernel surface_kind both_behind (mk_track 0 0) surfaces_0
      = Ok n' ∧
    candidates (kernel_of surface_kind n') ≡ₚ
      candidates (kernel_of surface_kind both_behind) ++
      filter (λ c, sf_status c = e_inside)
        (imap (object_record plane_intersect (mk_track 0 0) surfaces_0)
           (objects surfaces_0)) ∧
    (empty (kernel_of surface_kind n') = true →
     n' = set_kernel surface_kind
            (reserve (length (objects surfaces_0))
               (kernel_of surface_kind both_behind)) both_behind) ∧
    (objects surfaces_0 ≠ [] → empty (kernel_of surface_kind n') = false →
     Sorted (path_le length_lt) (candidates (kernel_of surface_kind n')) ∧
     next (kernel_of surface_kind n') = 0 ∧
     next_stale (kernel_of surface_kind n') = false).
Proof.
  eexists. split; [vm_compute; reflexivity|].
  apply (initialize_kernel_records length_lt doubling plane_intersect insertion_sort
           insertion_sort_perm insertion_sort_sorted surface_kind both_behind
           (mk_track 0 0) surfaces_0).
  vm_compute. reflexivity.
Defined.


Lemma target_in_range_witness :
  ∃ n',
    plane_target two_surfaces (lowered e_high_trust towards_first) (mk_track 1 0)
      = Ok n' ∧
    fits (surfaces volume_0) (surface_kernel n') ∧
    fits (portals volume_0) (portal_kernel n').
Proof.
  apply (target_in_range length_lt doubling trace_call plane_intersect insertion_sort
           two_surfaces insertion_sort_perm
           (lowered e_high_trust towards_first) (mk_track 1 0) volume_0).
  - reflexivity.
  - fits_by_computation.
  - fits_by_computation.
Defined.

Lemma call_inspects_once_at_the_end_witness :
  ∃ m,
    towards_first = inspect trace_call m ∧
    inspector m = inspector fresh ∧
    on_surface_tolerance towards_first = on_surface_tolerance fresh.
Proof.
  apply (call_inspects_once_at_the_end length_lt doubling trace_call plane_intersect
           insertion_sort two_surfaces fresh (mk_track 0 0) towards_first).
  left. exact first_status.
Defined.

Lemma navigator_assignments_witness :
  (nav_status towards_first = nav_status fresh ∨
   nav_status towards_first = e_towards_surface ∨
   nav_status towards_first = e_on_surface ∨
   nav_status towards_first = e_towards_portal ∨
   nav_status towards_first = e_on_portal) ∧
  (trust_level towards_first = e_fair_trust → trust_level fresh = e_fair_trust).
Proof.
  apply (navigator_assignments length_lt doubling trace_call plane_intersect
           insertion_sort two_surfaces fresh (mk_track 0 0) towards_first).
  left. exact first_status.
Defined.

Lemma on_object_means_within_tolerance_witness :
  ∃ n',
    plane_status two_surfaces (lowered e_high_trust towards_first) (mk_track 3 0)
      = Ok n' ∧
    nav_status n' = e_on_surface ∧
    on_object_within_tolerance length_lt n'.
Proof.
  eexists. split; [vm_compute; reflexivity|]. split; [reflexivity|].
  apply (on_object_means_within_tolerance length_lt doubling trace_call plane_intersect
           insertion_sort two_surfaces
           (lowered e_high_trust towards_first) (mk_track 3 0)).
  - intros [H | H]; discriminate.
  - left. vm_compute. reflexivity.
Defined.

Lemma fair_trust_update_ends_exhausted_witness :
  ∃ found n',
    plane_update_kernel surface_kind (lowered e_fair_trust towards_first)
      (mk_track 1 0) surfaces_0 = Ok (found, n') ∧
    found = false ∧
    trust_level n' = e_no_trust ∧
    is_exhausted (kernel_of surface_kind n') = true ∧
    Sorted (path_le length_lt) (candidates (kernel_of surface_kind n')) ∧
    index <$> candidates (kernel_of surface_kind n')
    ≡ₚ index <$> candidates
                   (kernel_of surface_kind (lowered e_fair_trust towards_first)) ∧
    Forall (up_to_date plane_intersect (mk_track 1 0) surfaces_0)
      (candidates (kernel_of surface_kind n')).
Proof.
  do 2 eexists. split; [vm_compute; reflexivity|].
  eapply (fair_trust_update_ends_exhausted length_lt doubling plane_intersect
           insertion_sort insertion_sort_perm insertion_sort_sorted
           surface_kind (lowered e_fair_trust towards_first) (mk_track 1 0)
           surfaces_0).
  - reflexivity.
  - reflexivity.
  - vm_compute. reflexivity.
Defined.

Lemma update_kernel_keeps_objects_witness :
  ∃ found n',
    plane_update_kernel surface_kind (lowered e_high_trust towards_first)
      (mk_track 4 0) surfaces_0 = Ok (found, n') ∧
    index <$> candidates (kernel_of surface_kind n')
    ≡ₚ index <$> candidates
                   (kernel_of surface_kind (lowered e_high_trust towards_first)) ∧
    (trust_level (lowered e_high_trust towards_first) ≠ e_fair_trust →
     index <$> candidates (kernel_of surface_kind n')
     = index <$> candidates
                   (kernel_of surface_kind (lowered e_high_trust towards_first)) ∧
     take (next (kernel_of surface_kind (lowered e_high_trust towards_first)))
       (candidates (kernel_of surface_kind n'))
     = take (next (kernel_of surface_kind (lowered e_high_trust towards_first)))
         (candidates
            (kernel_of surface_kind (lowered e_high_trust towards_first)))).
Proof.
  do 2 eexists. split; [vm_compute; reflexivity|].
  eapply (update_kernel_keeps_objects length_lt doubling plane_intersect insertion_sort
           insertion_sort_perm surface_kind
           (lowered e_high_trust towards_first) (mk_track 4 0) surfaces_0).
  - reflexivity.
  - vm_compute. reflexivity.
Defined.

Lemma update_kernel_found_witness :
  ∃ n',
    plane_update_kernel surface_kind (lowered e_high_trust towards_first)
      (mk_track 4 0) surfaces_0 = Ok (true, n') ∧
    nav_status n' = e_towards_surface ∧
    distance_to_next n' = finite 1 ∧
    next (surface_kernel n') = 1.
Proof.
  eexists. split; [vm_compute; reflexivity|].
  destruct (update_kernel_found length_lt doubling plane_intersect insertion_sort
              surface_kind (lowered e_high_trust towards_first) (mk_track 4 0)
              surfaces_0 _ eq_refl eq_refl eq_refl)
    as (i & cur & _). repeat split.
Defined.

Lemma update_kernel_recursion_ends_witness :
  update_kernel_fuel length_lt doubling plane_intersect insertion_sort 5 surface_kind
    (lowered e_high_trust towards_first) (mk_track 6 0) surfaces_0
  = plane_update_kernel surface_kind (lowered e_high_trust towards_first)
      (mk_track 6 0) surfaces_0 ∧
  plane_update_kernel surface_kind (lowered e_high_trust towards_first)
    (mk_track 6 0) surfaces_0 ≠ OutOfFuel.
Proof.
  apply (update_kernel_recursion_ends length_lt doubling plane_intersect insertion_sort
           5 surface_kind (lowered e_high_trust towards_first) (mk_track 6 0)
           surfaces_0).
  vm_compute. lia.
Defined.

Lemma volume_index_after_call_witness :
  (plane_status two_surfaces (lowered e_high_trust towards_portal)
     (mk_track 10 0) = Ok crossed →
   volume_index crossed = vol_index volume_0 ∨
   (nav_status crossed = e_on_portal ∧ trust_level crossed = e_no_trust ∧
    cleared (surface_kernel crossed) ∧
    cleared (portal_kernel crossed))) ∧
  (trust_level (lowered e_high_trust towards_portal) ≠ e_full_trust →
   plane_target two_surfaces (lowered e_high_trust towards_portal)
     (mk_track 10 0) = Ok crossed →
   volume_index crossed = vol_index volume_0).
Proof.
  apply (volume_index_after_call length_lt doubling trace_call plane_intersect
           insertion_sort two_surfaces (lowered e_high_trust towards_portal)
           (mk_track 10 0) volume_0 crossed).
  reflexivity.
Defined.

Lemma status_without_trust_stops_at_surfaces_witness :
  portal_kernel towards_first = portal_kernel fresh ∧
  volume_index towards_first = vol_index volume_0 ∧
  (objects (surfaces volume_0) ≠ [] →
   nav_status towards_first = e_towards_surface ∧
   trust_level towards_first = e_full_trust ∧
   next (surface_kernel towards_first) = 0 ∧
   current_index towards_first = dindex_invalid) ∧
  (objects (surfaces volume_0) = [] →
   surface_kernel towards_first = surface_kernel fresh ∧
   trust_level towards_first = e_no_trust).
Proof.
  apply (status_without_trust_stops_at_surfaces length_lt doubling trace_call
           plane_intersect insertion_sort two_surfaces insertion_sort_perm
           insertion_sort_sorted fresh (mk_track 0 0) volume_0 towards_first).
  - reflexivity.
  - reflexivity.
  - exact first_status.
  - reflexivity.
Defined.

(** Both surfaces are passed and [status] is called once more at x = 6:
    the surface kernel is exhausted and the portal kernel is initialised. *)
Definition surfaces_passed : state :=
  {| surface_kernel :=
       {| candidates := [inside_at 0 0 0; inside_at 0 1 0]; next := 2;
          next_stale := false; capacity := 2 |};
     portal_kernel :=
       {| candidates := [inside_at 4 0 1]; next := 0;
          next_stale := false; capacity := 1 |};
     volume_index := 0%N;
     distance_to_next := finite 4;
     on_surface_tolerance := tolerance;
     inspector := [];
     nav_status := e_towards_portal;
     current_index := dindex_invalid;
     trust_level := e_high_trust |}.

Lemma target_exhausted_surfaces_held_portals_witness :
  plane_target two_surfaces surfaces_passed (mk_track 7 0) =
    Ok (inspect trace_call
          {| surface_kernel :=
               {| candidates := []; next := 0; next_stale := false; capacity := 2 |};
             portal_kernel :=
               {| candidates := [inside_at 4 0 1]; next := 1;
                  next_stale := false; capacity := 1 |};
             volume_index := 0%N;
             distance_to_next := finite 4;
             on_surface_tolerance := tolerance;
             inspector := [];
             nav_status := e_towards_portal;
             current_index := dindex_invalid;
             trust_level := e_no_trust |}).
Proof.
  apply (target_exhausted_surfaces_held_portals length_lt doubling trace_call
           plane_intersect insertion_sort two_surfaces surfaces_passed
           (mk_track 7 0) volume_0); reflexivity.
Defined.

